(** * MeshBridge: the MBTiles splitter ([split_mbtiles.py])

    A shallow embedding of the zoom-level splitter: schema detection, the
    per-zoom size estimate, the greedy grouping of zoom levels under a byte
    budget, and the two archive writers.  Python values are modelled as the
    interpreter has them: [int] is [Z], [float] is an IEEE-754 binary64 value
    ([spec_float] at precision 53), a [dict] is a [gmap], an exception is an
    error result, and a [sqlite3.Connection] is a database together with the
    transaction flag that the [sqlite3] module maintains. *)

From Stdlib Require Import ZArith List String Bool Lia.
From Stdlib Require Import Floats.SpecFloat.
From stdpp Require Import base option list sorting gmap strings pretty.

Local Open Scope Z_scope.

(** ** The Python runtime: exceptions, [int] and [float] *)

Module Py.

(** The exception classes that the modelled code can raise. *)
Inductive exn : Type :=
| RuntimeError      (* raised by the program itself *)
| ValueError        (* int(nan), min([]) *)
| OverflowError     (* int(inf), float(n) for an n beyond the float range *)
| OperationalError  (* sqlite3: no such table, BEGIN inside a transaction,
                       unable to open database file *)
| IntegrityError    (* sqlite3: UNIQUE constraint failed *)
| OSError.          (* pathlib: FileExistsError, PermissionError, ... *)

(** The outcome of evaluating an expression: a value or a raised exception. *)
Inductive result (A : Type) : Type :=
| Ok (a : A)
| Raise (e : exn).
Arguments Ok {A} a.
Arguments Raise {A} e.

#[export] Instance result_ret : MRet result := fun A a => Ok a.
#[export] Instance result_bind : MBind result := fun A B k m =>
  match m with
  | Ok a => k a
  | Raise e => Raise e
  end.
#[export] Instance result_fmap : FMap result := fun A B g m =>
  match m with
  | Ok a => Ok (g a)
  | Raise e => Raise e
  end.

Definition is_ok {A} (m : result A) : Prop := exists a, m = Ok a.

(** [for x in xs: acc = body(acc, x)], stopping at the first exception. *)
Fixpoint for_each {M : Type -> Type} `{!MBind M, !MRet M} {A S : Type}
    (body : S -> A -> M S) (xs : list A) (acc : S) : M S :=
  match xs with
  | [] => mret acc
  | x :: xs' => acc' ← body acc x; for_each body xs' acc'
  end.

(** A Python [float] is a binary64 number. *)
Definition prec : Z := 53.
Definition emax : Z := 1024.
Definition float : Type := spec_float.

Definition is_finite (x : float) : bool :=
  match x with
  | S754_zero _ | S754_finite _ _ _ => true
  | S754_infinity _ | S754_nan => false
  end.

(** The float nearest to the decimal literal [n / 2^k] (exact for 1.25). *)
Definition float_of_dyadic (n : Z) (k : Z) : float :=
  binary_normalize prec emax n (- k) false.

(** [float(n)] for an [int]: rounds to nearest-even and raises
    [OverflowError] when [n] is beyond the range of a float. *)
Definition float_of_int (n : Z) : result float :=
  match binary_normalize prec emax n 0 false with
  | S754_infinity _ => Raise OverflowError
  | x => Ok x
  end.

(** [n * x] for an [int] n and a [float] x: the int is converted first,
    the product is the IEEE product (it overflows to an infinity silently). *)
Definition int_mul_float (n : Z) (x : float) : result float :=
  y ← float_of_int n; mret (SFmul prec emax y x).

(** [int(x)] for a [float]: truncation toward zero; [ValueError] on a NaN,
    [OverflowError] on an infinity. *)
Definition int_of_float (x : float) : result Z :=
  match x with
  | S754_nan => Raise ValueError
  | S754_infinity _ => Raise OverflowError
  | S754_zero _ => Ok 0
  | S754_finite s m e => Ok (cond_Zopp s (Z.shiftl (Zpos m) e))
  end.

(** [min(xs)] and [max(xs)]: [ValueError] on an empty list. *)
Definition min (xs : list Z) : result Z :=
  match xs with
  | [] => Raise ValueError
  | x :: xs' => Ok (foldl Z.min x xs')
  end.
Definition max (xs : list Z) : result Z :=
  match xs with
  | [] => Raise ValueError
  | x :: xs' => Ok (foldl Z.max x xs')
  end.

(** [str(n)] for an [int]: the decimal numeral. *)
Definition str (n : Z) : string := pretty n.

End Py.
Import Py.

(** ** [group_zooms_by_limit] *)

(** The three local variables of the loop. *)
Record grouping : Type := Grouping {
  groups : list (list Z);
  current : list Z;
  current_est : Z
}.

(** [int(zoom_bytes.get(z, 0) * overhead_factor)] *)
Definition adjusted_estimate (zoom_bytes : gmap Z Z) (overhead_factor : float)
    (z : Z) : result Z :=
  x ← int_mul_float (default 0 (zoom_bytes !! z)) overhead_factor;
  int_of_float x.

(** One iteration of [for z in zooms]. *)
Definition group_step (zoom_bytes : gmap Z Z) (limit_bytes : Z)
    (overhead_factor : float) (st : grouping) (z : Z) : result grouping :=
  est ← adjusted_estimate zoom_bytes overhead_factor z;
  match current st with
  | [] =>
      (* if not current: *)
      mret (Grouping (groups st) [z] est)
  | _ :: _ =>
      if current_est st + est <=? limit_bytes
      then mret (Grouping (groups st) (current st ++ [z]) (current_est st + est))
      else mret (Grouping (groups st ++ [current st]) [z] est)
  end.

Definition group_zooms_by_limit (zooms : list Z) (zoom_bytes : gmap Z Z)
    (limit_bytes : Z) (overhead_factor : float) : result (list (list Z)) :=
  st ← for_each (group_step zoom_bytes limit_bytes overhead_factor) zooms
        (Grouping [] [] 0);
  match current st with
  | [] => mret (groups st)
  | _ :: _ => mret (groups st ++ [current st])
  end.

(** The sum of the adjusted estimates of the members of a group. *)
Fixpoint group_estimate (zoom_bytes : gmap Z Z) (overhead_factor : float)
    (g : list Z) : result Z :=
  match g with
  | [] => Ok 0
  | z :: g' =>
      est ← adjusted_estimate zoom_bytes overhead_factor z;
      rest ← group_estimate zoom_bytes overhead_factor g';
      mret (est + rest)
  end.

Definition overhead_1_25 : float := float_of_dyadic 5 2.

Definition scenario_bytes : gmap Z Z :=
  <[0 := 1000]> (<[1 := 2000]> (<[2 := 50000000]> (<[3 := 200]> ∅))).


(** ** SQLite: archives and the statements the program executes *)

Module Sqlite.

Definition blob : Type := list Byte.byte.

(** A row of [tiles (zoom_level, tile_column, tile_row, tile_data)]: the
    three INTEGER columns hold integers, [tile_data] a blob or SQL NULL
    ([None]). *)
Record tiles_row : Type := TilesRow {
  zoom_level : Z;
  tile_column : Z;
  tile_row : Z;
  tile_data : option blob
}.

(** A row of [map (zoom_level, tile_column, tile_row, tile_id)]. *)
Record map_row : Type := MapRow {
  map_zoom_level : Z;
  map_tile_column : Z;
  map_tile_row : Z;
  map_tile_id : string
}.

(** A row of [images (tile_id, tile_data)]. *)
Record images_row : Type := ImagesRow {
  images_tile_id : string;
  images_tile_data : option blob
}.

(** A row of [metadata (name, value)]. *)
Record metadata_row : Type := MetadataRow {
  name : string;
  value : string
}.

(** An archive: each table is absent ([None]) or holds its rows in rowid
    order.  [tile_index] and [map_index] say whether the unique index of
    that name exists; [images_pk] whether [images.tile_id] is a primary
    key. *)
Record database : Type := Database {
  tiles : option (list tiles_row);
  tile_index : bool;
  map_table : option (list map_row);
  map_index : bool;
  images : option (list images_row);
  images_pk : bool;
  metadata : option (list metadata_row)
}.

(** What [sqlite3.connect] finds at a path where no file exists. *)
Definition empty_database : database :=
  Database None false None false None false None.

Definition set_tiles (v : option (list tiles_row)) (db : database) :=
  Database v (tile_index db) (map_table db) (map_index db) (images db)
           (images_pk db) (metadata db).
Definition set_tile_index (v : bool) (db : database) :=
  Database (tiles db) v (map_table db) (map_index db) (images db)
           (images_pk db) (metadata db).
Definition set_map_table (v : option (list map_row)) (db : database) :=
  Database (tiles db) (tile_index db) v (map_index db) (images db)
           (images_pk db) (metadata db).
Definition set_map_index (v : bool) (db : database) :=
  Database (tiles db) (tile_index db) (map_table db) v (images db)
           (images_pk db) (metadata db).
Definition set_images (v : option (list images_row)) (pk : bool)
    (db : database) :=
  Database (tiles db) (tile_index db) (map_table db) (map_index db) v pk
           (metadata db).
Definition set_metadata (v : option (list metadata_row)) (db : database) :=
  Database (tiles db) (tile_index db) (map_table db) (map_index db)
           (images db) (images_pk db) v.

Definition present {A} (t : option A) : bool :=
  match t with
  | Some _ => true
  | None => false
  end.

(** The [(type, name)] columns of [sqlite_master]. *)
Definition sqlite_master (db : database) : list (string * string) :=
  (if present (tiles db) then [("table", "tiles")] else []) ++
  (if tile_index db then [("index", "tile_index")] else []) ++
  (if present (map_table db) then [("table", "map")] else []) ++
  (if map_index db then [("index", "map_index")] else []) ++
  (if present (images db) then [("table", "images")] else []) ++
  (if present (metadata db) then [("table", "metadata")] else []).

(** A statement that names a missing table fails with [OperationalError]. *)
Definition from_table {A} (t : option (list A)) : result (list A) :=
  match t with
  | Some rows => Ok rows
  | None => Raise OperationalError
  end.

(** [LENGTH(x)]: NULL for NULL, the number of bytes of a blob. *)
Definition sql_length (x : option blob) : option Z :=
  (fun b => Z.of_nat (length b)) <$> x.

(** [SUM(x)]: the sum of the non-NULL values, NULL when there is none.
    (The 64-bit overflow error of SUM is out of reach of sums of blob
    lengths and is not modelled.) *)
Definition sql_sum (xs : list (option Z)) : option Z :=
  match omap id xs with
  | [] => None
  | y :: ys => Some (foldl Z.add y ys)
  end.

(** [SELECT DISTINCT k ... ORDER BY k] *)
Definition distinct_ordered (ks : list Z) : list Z :=
  merge_sort Z.le (remove_dups ks).

(** [SELECT k, SUM(v) ... GROUP BY k ORDER BY k] over [(k, v)] rows. *)
Definition group_by_sum (rows : list (Z * option Z)) : list (Z * option Z) :=
  (fun k => (k, sql_sum (snd <$> filter (fun r => r.1 = k) rows)))
    <$> distinct_ordered (fst <$> rows).

(** [x IN (?, ..., ?)] with the list bound to the placeholders. *)
Definition sql_in (x : Z) (xs : list Z) : bool := bool_decide (x ∈ xs).

(** [SELECT 1 FROM sqlite_master WHERE type='table' AND name=? LIMIT 1],
    then [fetchone()]. *)
Definition select_table_named (nm : string) (db : database)
    : result (option Z) :=
  Ok (head ((fun _ => 1) <$>
        filter (fun e => e.1 = "table"%string /\ e.2 = nm) (sqlite_master db))).

(** [SELECT DISTINCT zoom_level FROM tiles ORDER BY zoom_level] *)
Definition select_zoom_levels_tiles (db : database) : result (list Z) :=
  rows ← from_table (tiles db);
  mret (distinct_ordered (zoom_level <$> rows)).

(** [SELECT DISTINCT zoom_level FROM map ORDER BY zoom_level] *)
Definition select_zoom_levels_map (db : database) : result (list Z) :=
  rows ← from_table (map_table db);
  mret (distinct_ordered (map_zoom_level <$> rows)).

(** [SELECT zoom_level, SUM(LENGTH(tile_data)) AS bytes FROM tiles
     GROUP BY zoom_level ORDER BY zoom_level] *)
Definition select_zoom_bytes_tiles (db : database)
    : result (list (Z * option Z)) :=
  rows ← from_table (tiles db);
  mret (group_by_sum
          ((fun r => (zoom_level r, sql_length (tile_data r))) <$> rows)).

(** [map m JOIN images i ON m.tile_id = i.tile_id]: one joined row for
    every pair of a coordinate row and an image row with equal tile_id. *)
Definition join_map_images (ms : list map_row) (imgs : list images_row)
    : list (map_row * images_row) :=
  m ← ms;
  (fun i => (m, i)) <$> filter (fun i => images_tile_id i = map_tile_id m) imgs.

(** [SELECT m.zoom_level AS zoom_level, SUM(LENGTH(i.tile_data)) AS bytes
     FROM map m JOIN images i ON m.tile_id = i.tile_id
     GROUP BY m.zoom_level ORDER BY m.zoom_level] *)
Definition select_zoom_bytes_map_images (db : database)
    : result (list (Z * option Z)) :=
  ms ← from_table (map_table db);
  imgs ← from_table (images db);
  mret (group_by_sum
          ((fun mi => (map_zoom_level mi.1, sql_length (images_tile_data mi.2)))
             <$> join_map_images ms imgs)).

(** [SELECT name, value FROM metadata] *)
Definition select_metadata (db : database) : result (list metadata_row) :=
  from_table (metadata db).

(** [CREATE TABLE IF NOT EXISTS metadata (name TEXT, value TEXT)] *)
Definition create_table_metadata (db : database) : result database :=
  match metadata db with
  | Some _ => Ok db
  | None => Ok (set_metadata (Some []) db)
  end.

(** [DELETE FROM metadata] *)
Definition delete_from_metadata (db : database) : result database :=
  _ ← from_table (metadata db);
  mret (set_metadata (Some []) db).

(** [INSERT INTO metadata(name, value) VALUES(?, ?)] *)
Definition insert_into_metadata (nm val : string) (db : database)
    : result database :=
  rows ← from_table (metadata db);
  mret (set_metadata (Some (rows ++ [MetadataRow nm val])) db).

(** [DELETE FROM metadata WHERE name=?] *)
Definition delete_from_metadata_where_name (nm : string) (db : database)
    : result database :=
  rows ← from_table (metadata db);
  mret (set_metadata (Some (filter (fun r => name r ≠ nm) rows)) db).

(** [CREATE TABLE IF NOT EXISTS tiles (...)] *)
Definition create_table_tiles (db : database) : result database :=
  match tiles db with
  | Some _ => Ok db
  | None => Ok (set_tiles (Some []) db)
  end.

Definition tiles_key (r : tiles_row) : Z * Z * Z :=
  (zoom_level r, tile_column r, tile_row r).
Definition map_key (r : map_row) : Z * Z * Z :=
  (map_zoom_level r, map_tile_column r, map_tile_row r).

(** [CREATE UNIQUE INDEX IF NOT EXISTS tile_index
     ON tiles (zoom_level, tile_column, tile_row)]: fails when the rows
    already there repeat a key. *)
Definition create_tile_index (db : database) : result database :=
  if tile_index db then Ok db
  else
    rows ← from_table (tiles db);
    if bool_decide (NoDup (tiles_key <$> rows))
    then mret (set_tile_index true db)
    else Raise IntegrityError.

(** [CREATE TABLE IF NOT EXISTS map (...)] *)
Definition create_table_map (db : database) : result database :=
  match map_table db with
  | Some _ => Ok db
  | None => Ok (set_map_table (Some []) db)
  end.

(** [CREATE TABLE IF NOT EXISTS images (tile_id TEXT PRIMARY KEY,
     tile_data BLOB)] *)
Definition create_table_images (db : database) : result database :=
  match images db with
  | Some _ => Ok db
  | None => Ok (set_images (Some []) true db)
  end.

(** [CREATE UNIQUE INDEX IF NOT EXISTS map_index
     ON map (zoom_level, tile_column, tile_row)] *)
Definition create_map_index (db : database) : result database :=
  if map_index db then Ok db
  else
    rows ← from_table (map_table db);
    if bool_decide (NoDup (map_key <$> rows))
    then mret (set_map_index true db)
    else Raise IntegrityError.

(** One row inserted into [tiles]; the unique index rejects a key that is
    already there. *)
Definition insert_tiles_row (unique : bool) (rows : list tiles_row)
    (r : tiles_row) : result (list tiles_row) :=
  if unique && bool_decide (tiles_key r ∈ tiles_key <$> rows)
  then Raise IntegrityError
  else Ok (rows ++ [r]).

(** [INSERT INTO tiles(zoom_level, tile_column, tile_row, tile_data)
     SELECT zoom_level, tile_column, tile_row, tile_data FROM tiles
     WHERE zoom_level IN (?, ..., ?)].
    The statement runs on one connection: the table read by the SELECT
    and the table written by the INSERT are both the [tiles] table of
    that connection's database. *)
Definition insert_into_tiles_select (zooms : list Z) (db : database)
    : result database :=
  rows ← from_table (tiles db);
  rows' ← for_each (insert_tiles_row (tile_index db))
             (filter (fun r => sql_in (zoom_level r) zooms = true) rows) rows;
  mret (set_tiles (Some rows') db).

Definition insert_map_row (unique : bool) (rows : list map_row)
    (r : map_row) : result (list map_row) :=
  if unique && bool_decide (map_key r ∈ map_key <$> rows)
  then Raise IntegrityError
  else Ok (rows ++ [r]).

(** [INSERT INTO map(zoom_level, tile_column, tile_row, tile_id)
     SELECT zoom_level, tile_column, tile_row, tile_id FROM map
     WHERE zoom_level IN (?, ..., ?)], on one connection as above. *)
Definition insert_into_map_select (zooms : list Z) (db : database)
    : result database :=
  rows ← from_table (map_table db);
  rows' ← for_each (insert_map_row (map_index db))
             (filter (fun r => sql_in (map_zoom_level r) zooms = true) rows) rows;
  mret (set_map_table (Some rows') db).

(** One row offered to [images] by INSERT OR IGNORE: skipped when the
    primary key is already there. *)
Definition insert_or_ignore_images_row (pk : bool) (rows : list images_row)
    (r : images_row) : list images_row :=
  if pk && bool_decide (images_tile_id r ∈ images_tile_id <$> rows)
  then rows
  else rows ++ [r].

(** [INSERT OR IGNORE INTO images(tile_id, tile_data)
     SELECT i.tile_id, i.tile_data FROM images i
     JOIN (SELECT DISTINCT tile_id FROM map) m ON i.tile_id = m.tile_id],
    on one connection as above. *)
Definition insert_or_ignore_into_images_select (db : database)
    : result database :=
  ms ← from_table (map_table db);
  imgs ← from_table (images db);
  mret (set_images
          (Some (foldl (insert_or_ignore_images_row (images_pk db)) imgs
                   (filter (fun i => images_tile_id i ∈ map_tile_id <$> (ms : list map_row))
                      (imgs : list images_row))))
          (images_pk db) db).

(** *** Connections of the [sqlite3] module

    A connection opened with the default [isolation_level]: the module
    opens a transaction implicitly before an INSERT, UPDATE, DELETE or
    REPLACE when none is open, leaves every other statement alone, and
    closes the transaction only in [commit()]. *)
Record connection : Type := Connection {
  database_of : database;
  in_transaction : bool
}.

(** A computation over a state [S] that returns a value or raises. *)
Definition action (S A : Type) : Type := S -> result A * S.

#[export] Instance action_ret {S} : MRet (action S) :=
  fun A a s => (Ok a, s).
#[export] Instance action_bind {S} : MBind (action S) :=
  fun A B k m s =>
    match m s with
    | (Ok a, s') => k a s'
    | (Raise e, s') => (Raise e, s')
    end.

Definition raise {S A} (e : exn) : action S A := fun s => (Raise e, s).
Definition lift {S A} (r : result A) : action S A := fun s => (r, s).

Definition connect (db : database) : connection := Connection db false.

(** [conn.execute(<SELECT ...>)] and fetching the rows. *)
Definition execute_select {A} (q : database -> result A)
    : action connection A :=
  fun c => (q (database_of c), c).

(** [conn.execute(<statement>)] for a statement that is not INSERT, UPDATE,
    DELETE or REPLACE and that cannot fail part-way (CREATE TABLE ...). *)
Definition execute (stmt : database -> result database)
    : action connection unit :=
  fun c =>
    match stmt (database_of c) with
    | Ok db' => (Ok tt, Connection db' (in_transaction c))
    | Raise e => (Raise e, c)
    end.

(** [conn.execute(<CREATE UNIQUE INDEX ...>)] on a connection that has run
    [PRAGMA journal_mode=OFF], which is how the writers, the only callers,
    create their indexes.  When the rows repeat a key the statement fails
    after it has entered the index in the catalog; inside a transaction
    SQLite has no journal to undo that entry with, and [sqlite_master] goes
    on listing the index ([listed]); outside a transaction nothing of the
    statement is kept.  A statement that does not compile (no such table)
    changes nothing. *)
Definition execute_create_index (stmt : database -> result database)
    (listed : database -> database) : action connection unit :=
  fun c =>
    match stmt (database_of c) with
    | Ok db' => (Ok tt, Connection db' (in_transaction c))
    | Raise IntegrityError =>
        (Raise IntegrityError,
         if in_transaction c then Connection (listed (database_of c)) true else c)
    | Raise e => (Raise e, c)
    end.

(** [conn.execute(<INSERT | DELETE ...>)]: the module compiles the
    statement, then begins a transaction when none is open, then runs the
    statement.  [OperationalError] is what a statement that does not compile
    raises (no such table): the connection is left as it was.  Any other
    exception is raised while the statement runs, with the transaction
    open. *)
Definition execute_dml (stmt : database -> result database)
    : action connection unit :=
  fun c =>
    match stmt (database_of c) with
    | Ok db' => (Ok tt, Connection db' true)
    | Raise OperationalError => (Raise OperationalError, c)
    | Raise e => (Raise e, Connection (database_of c) true)
    end.

(** [conn.execute("PRAGMA ...")]: the three pragmas of the writers change
    durability settings only. *)
Definition execute_pragma : action connection unit :=
  fun c => (Ok tt, c).

(** [conn.execute("BEGIN")]: SQLite refuses to start a transaction within
    a transaction. *)
Definition execute_begin : action connection unit :=
  fun c =>
    if in_transaction c then (Raise OperationalError, c)
    else (Ok tt, Connection (database_of c) true).

(** [conn.commit()] *)
Definition commit : action connection unit :=
  fun c => (Ok tt, Connection (database_of c) false).

(** [conn.execute("VACUUM")]: refused within a transaction; the rows are
    unchanged. *)
Definition execute_vacuum : action connection unit :=
  fun c =>
    if in_transaction c then (Raise OperationalError, c) else (Ok tt, c).

(** The database in the file behind a connection, as the connection
    sees it. *)
Definition stored_database : action connection database :=
  fun c => (Ok (database_of c), c).

(** [conn.close()] *)
Definition close : action connection unit :=
  fun c => (Ok tt, c).

End Sqlite.
Import Sqlite.

(** ** The program *)

(** [connect_ro(path)] and [connect_rw(path)], given the database that
    [sqlite3.connect] opens: for [connect_rw] the one stored at the path
    ([empty_database] when there is no file yet: [sqlite3.connect] creates
    it), for [connect_ro] the one stored in the file that the URI
    [file:{path}?mode=ro] names ([open_source] below tells which one that
    is, and when there is none).  Both connections start with no
    transaction open. *)
Definition connect_ro (db : database) : connection := connect db.
Definition connect_rw (db : database) : connection := connect db.

(** [SELECT 1 FROM sqlite_master WHERE type='table' AND name=? LIMIT 1];
    [cur.fetchone() is not None]. *)
Definition table_exists (nm : string) : action connection bool :=
  row ← execute_select (select_table_named nm);
  mret (bool_decide (row ≠ None)).

Definition get_mbtiles_schema_type : action connection string :=
  has_tiles ← table_exists "tiles";
  if (has_tiles : bool) then mret "tiles"%string
  else
    has_map ← table_exists "map";
    (* [and] evaluates its right operand only when the left one is true *)
    has_both ← (if (has_map : bool) then table_exists "images" else mret false);
    if (has_both : bool) then mret "map_images"%string
    else raise RuntimeError.

Definition get_zoom_levels (schema : string) : action connection (list Z) :=
  if bool_decide (schema = "tiles"%string)
  then execute_select select_zoom_levels_tiles
  else execute_select select_zoom_levels_map.

(** [{int(r["zoom_level"]): int(r["bytes"] or 0) for r in rows}] *)
Definition zoom_bytes_of_rows (rows : list (Z * option Z)) : gmap Z Z :=
  foldl (fun d r => <[r.1 := default 0 r.2]> d) ∅ rows.

Definition estimate_zoom_sizes_bytes (schema : string)
    : action connection (gmap Z Z) :=
  if bool_decide (schema = "tiles"%string)
  then rows ← execute_select select_zoom_bytes_tiles;
       mret (zoom_bytes_of_rows rows)
  else rows ← execute_select select_zoom_bytes_map_images;
       mret (zoom_bytes_of_rows rows).

(** What a writer prints. *)
Inductive line : Type :=
| OutputStillOverLimit (size limit_bytes : Z).

(** A writer at work: the read-only source connection, the destination
    connection and the standard output. *)
Record process : Type := Process {
  src : connection;
  dst : connection;
  stdout : list line
}.

Definition on_src {A} (m : action connection A) : action process A :=
  fun p =>
    let '(r, c) := m (src p) in (r, Process c (dst p) (stdout p)).
Definition on_dst {A} (m : action connection A) : action process A :=
  fun p =>
    let '(r, c) := m (dst p) in (r, Process (src p) c (stdout p)).
Definition print (l : line) : action process unit :=
  fun p => (Ok tt, Process (src p) (dst p) (stdout p ++ [l])).

Definition copy_metadata : action process unit :=
  on_dst (execute create_table_metadata);;
  on_dst (execute_dml delete_from_metadata);;
  has_metadata ← on_src (table_exists "metadata");
  if (has_metadata : bool) then
    rows ← on_src (execute_select select_metadata);
    for_each
      (fun _ row => on_dst (execute_dml (insert_into_metadata (name row) (value row))))
      rows tt
  else mret tt.

Definition upsert_metadata (nm val : string) : action connection unit :=
  execute_dml (delete_from_metadata_where_name nm);;
  execute_dml (insert_into_metadata nm val).

Definition create_schema_tiles : action connection unit :=
  execute create_table_tiles;;
  execute_create_index create_tile_index (set_tile_index true).

Definition create_schema_map_images : action connection unit :=
  execute create_table_map;;
  execute create_table_images;;
  execute_create_index create_map_index (set_map_index true).

Section Writers.

(** [os.path.getsize] of the file that holds a database. *)
Variable getsize : database -> Z.

Definition vacuum_and_size : action connection Z :=
  execute_vacuum;;
  commit;;
  db ← stored_database;
  mret (getsize db).

(** The last lines of both writers: compact and measure, close both
    connections, warn when the file is over the limit, return the size. *)
Definition measure_and_report (limit_bytes : Z) : action process Z :=
  size ← on_dst vacuum_and_size;
  on_dst close;;
  on_src close;;
  (if limit_bytes <? size
   then print (OutputStillOverLimit size limit_bytes)
   else mret tt);;
  mret size.

(** The writer for the [tiles] schema, from the connections it has just
    opened on the source and on the output path. *)
Definition split_tiles_schema_from (zooms : list Z) (limit_bytes : Z)
    : action process Z :=
  on_dst execute_pragma;;
  on_dst execute_pragma;;
  on_dst execute_pragma;;
  copy_metadata;;
  on_dst create_schema_tiles;;
  zmin ← lift (min zooms);
  zmax ← lift (max zooms);
  on_dst (upsert_metadata "minzoom" (str zmin));;
  on_dst (upsert_metadata "maxzoom" (str zmax));;
  (* Copy tiles *)
  on_dst execute_begin;;
  on_dst (execute_dml (insert_into_tiles_select zooms));;
  on_dst commit;;
  measure_and_report limit_bytes.

(** [split_tiles_schema(src_path, out_path, zooms, limit_bytes)], given
    the database that [connect_ro(src_path)] opens and the one stored at
    [out_path] ([empty_database] when there is no file yet). *)
Definition split_tiles_schema (src_db out_db : database) (zooms : list Z)
    (limit_bytes : Z) : result Z * process :=
  split_tiles_schema_from zooms limit_bytes
    (Process (connect_ro src_db) (connect_rw out_db) []).

Definition split_map_images_schema_from (zooms : list Z) (limit_bytes : Z)
    : action process Z :=
  on_dst execute_pragma;;
  on_dst execute_pragma;;
  on_dst execute_pragma;;
  copy_metadata;;
  on_dst create_schema_map_images;;
  zmin ← lift (min zooms);
  zmax ← lift (max zooms);
  on_dst (upsert_metadata "minzoom" (str zmin));;
  on_dst (upsert_metadata "maxzoom" (str zmax));;
  (* Copy map rows for zooms *)
  on_dst execute_begin;;
  on_dst (execute_dml (insert_into_map_select zooms));;
  on_dst commit;;
  (* Copy only referenced images *)
  on_dst execute_begin;;
  on_dst (execute_dml insert_or_ignore_into_images_select);;
  on_dst commit;;
  measure_and_report limit_bytes.

Definition split_map_images_schema (src_db out_db : database)
    (zooms : list Z) (limit_bytes : Z) : result Z * process :=
  split_map_images_schema_from zooms limit_bytes
    (Process (connect_ro src_db) (connect_rw out_db) []).

End Writers.

(** ** Specification vocabulary for the grouper *)

(** The running total of group [g] is defined and within the limit. *)
Definition within_limit (zoom_bytes : gmap Z Z) (limit_bytes : Z)
    (overhead_factor : float) (g : list Z) : Prop :=
  exists s, group_estimate zoom_bytes overhead_factor g = Ok s /\ s <= limit_bytes.

(** Appending zoom level [z] to group [g] would take its running total over
    the limit. *)
Definition overflows (zoom_bytes : gmap Z Z) (limit_bytes : Z)
    (overhead_factor : float) (g : list Z) (z : Z) : Prop :=
  exists s e,
    group_estimate zoom_bytes overhead_factor g = Ok s /\
    adjusted_estimate zoom_bytes overhead_factor z = Ok e /\
    limit_bytes < s + e.

(** The loop invariant of [group_zooms_by_limit] once a first zoom level
    has been taken: [G] is [groups + [current]] after the levels [seen]. *)
Record packed (zoom_bytes : gmap Z Z) (limit_bytes : Z)
    (overhead_factor : float) (seen : list Z) (G : list (list Z))
    (st : grouping) : Prop := Packed {
  packed_groups : G = groups st ++ [current st];
  packed_concat : concat G = seen;
  packed_nonempty : Forall (fun g => g <> []) G;
  packed_est :
    group_estimate zoom_bytes overhead_factor (current st) = Ok (current_est st);
  packed_bound :
    Forall (fun g => (1 < length g)%nat ->
                     within_limit zoom_bytes limit_bytes overhead_factor g) G;
  packed_boundary :
    forall (i : nat) g z rest,
      G !! i = Some g -> G !! S i = Some (z :: rest) ->
      overflows zoom_bytes limit_bytes overhead_factor g z
}.

(** ** Specification vocabulary for the size estimate *)

Definition sum_Z (xs : list Z) : Z := foldr Z.add 0 xs.

(** The bytes a [tile_data] value accounts for: its length, and 0 when it
    is NULL. *)
Definition payload (x : option blob) : Z := default 0 (sql_length x).

(** The payload of the [tiles] rows at zoom level [z]. *)
Definition tiles_level_bytes (db : database) (z : Z) : Z :=
  sum_Z ((fun r => payload (tile_data r))
           <$> filter (fun r => zoom_level r = z) (default [] (tiles db))).

(** The coordinate rows at zoom level [z], each paired with every image row
    of the same tile_id. *)
Definition joined_at_level (db : database) (z : Z) : list (map_row * images_row) :=
  filter (fun mi => map_zoom_level mi.1 = z)
    (join_map_images (default [] (map_table db)) (default [] (images db))).

Definition map_images_level_bytes (db : database) (z : Z) : Z :=
  sum_Z ((fun mi => payload (images_tile_data mi.2)) <$> joined_at_level db z).

(** The tables that the queries of a schema variant read are there. *)
Definition has_schema_tables (schema : string) (db : database) : Prop :=
  if bool_decide (schema = "tiles"%string)
  then is_Some (tiles db)
  else is_Some (map_table db) /\ is_Some (images db).

(** A [map]/[images] archive with one coordinate row whose image is
    missing. *)
Definition dangling_archive : database :=
  Database None false (Some [MapRow 5 0 0 "a"]) false (Some []) false None.

(** ** Specification vocabulary for the writers *)

(** Partial correctness of an action: from a state that satisfies [P], if
    the action returns a value then the value and the final state satisfy
    [Q]. *)
Definition hoare {S A} (P : S -> Prop) (m : action S A) (Q : A -> S -> Prop)
    : Prop :=
  forall s, P s ->
    match m s with
    | (Ok a, s') => Q a s'
    | (Raise _, _) => True
    end.

(** The destination connection has a transaction open. *)
Definition dst_in_transaction (p : process) : Prop :=
  in_transaction (dst p) = true.

(** The metadata a writer is meant to leave in its output for the zoom range
    [zmin..zmax]: the source rows other than minzoom and maxzoom, then one
    minzoom row and one maxzoom row. *)
Definition output_metadata (src_db : database) (zmin zmax : Z)
    : list metadata_row :=
  filter (fun r => name r <> "maxzoom"%string)
    (filter (fun r => name r <> "minzoom"%string) (default [] (metadata src_db)))
  ++ [MetadataRow "minzoom" (str zmin); MetadataRow "maxzoom" (str zmax)].

(** A [tiles] archive with one tile at zoom level 0. *)
Definition one_tile_archive : database :=
  Database (Some [TilesRow 0 0 0 (Some [Byte.x89; Byte.x50])]) true
           None false None false
           (Some [MetadataRow "format" "png"; MetadataRow "minzoom" "0";
                  MetadataRow "maxzoom" "5"]).

(** A [map]/[images] archive with one coordinate row at zoom level 5 and
    its image. *)
Definition one_image_archive : database :=
  Database None false
           (Some [MapRow 5 0 0 "a"]) true
           (Some [ImagesRow "a" (Some [Byte.x89; Byte.x50])]) true
           (Some [MetadataRow "format" "png"]).

(** ** Further vocabulary *)

(** The [zoom_level] column of the table that the queries of a schema
    variant read. *)
Definition schema_zoom_values (schema : string) (db : database) : list Z :=
  if bool_decide (schema = "tiles"%string)
  then zoom_level <$> default [] (tiles db)
  else map_zoom_level <$> default [] (map_table db).

(** The bytes that the image rows with the tile_id of coordinate row [m]
    account for. *)
Definition image_bytes_of (imgs : list images_row) (m : map_row) : Z :=
  sum_Z ((fun i => payload (images_tile_data i))
           <$> filter (fun i => images_tile_id i = map_tile_id m) imgs).

(** Every adjusted estimate of the levels [zooms] that is computable is
    non-negative. *)
Definition nonnegative_estimates (zoom_bytes : gmap Z Z)
    (overhead_factor : float) (zooms : list Z) : Prop :=
  forall z e,
    z ∈ zooms -> adjusted_estimate zoom_bytes overhead_factor z = Ok e -> 0 <= e.

(** The adjusted estimate of a level as a number: 0 when it is not
    computable. *)
Definition weight (zoom_bytes : gmap Z Z) (overhead_factor : float) (z : Z) : Z :=
  match adjusted_estimate zoom_bytes overhead_factor z with
  | Ok e => e
  | Raise _ => 0
  end.

(** A way of cutting [zooms] into consecutive groups that the limit allows:
    the groups are non-empty, their concatenation is [zooms], and every group
    of more than one level has a total within the limit (a level on its own
    is allowed whatever its size, as in the code). *)
Definition admissible_grouping (zoom_bytes : gmap Z Z) (limit_bytes : Z)
    (overhead_factor : float) (zooms : list Z) (P : list (list Z)) : Prop :=
  concat P = zooms /\
  Forall (fun g => g <> []) P /\
  Forall (fun g => (1 < length g)%nat ->
                   sum_Z (weight zoom_bytes overhead_factor <$> g) <= limit_bytes) P.

(** What the loop of the grouper guarantees about the groups [G] it cuts a
    list [X] into, in terms of a weight per level: they are consecutive and
    non-empty, and the first level of each group would not have fitted into
    the group before it. *)
Definition cut_greedily (wt : Z -> Z) (limit : Z) (X : list Z)
    (G : list (list Z)) : Prop :=
  concat G = X /\
  Forall (fun g => g <> []) G /\
  forall (i : nat) g z rest,
    G !! i = Some g -> G !! S i = Some (z :: rest) ->
    limit < sum_Z (wt <$> g) + wt z.

(** ** [sanitize_name] *)

(** A Python [str] is a sequence of Unicode code points; [codes] gives the
    code points of an ASCII literal. *)
Definition codes (s : string) : list N :=
  Ascii.N_of_ascii <$> String.list_ascii_of_string s.

Section SanitizeName.

(** [str.isalnum()] and [str.isspace()] of a one-character string are read
    from the Unicode database; for the ASCII range their values are written
    out below, the rest of the two tables is taken as given. *)
Variable unicode_isalnum : N -> bool.
Variable unicode_isspace : N -> bool.

Definition in_range (lo hi c : N) : bool := ((lo <=? c) && (c <=? hi))%N.

Definition isalnum (c : N) : bool :=
  if (c <? 128)%N
  then in_range 48 57 c || in_range 65 90 c || in_range 97 122 c
  else unicode_isalnum c.

(** ASCII whitespace for Python: TAB, LF, VT, FF, CR, FS, GS, RS, US and the
    space. *)
Definition isspace (c : N) : bool :=
  if (c <? 128)%N
  then in_range 9 13 c || in_range 28 31 c || (c =? 32)%N
  else unicode_isspace c.

(** The regular expression [\w] on a [str] pattern: alphanumeric or the
    underscore. *)
Definition word_char (c : N) : bool := isalnum c || (c =? 95)%N.

(** The character class [[\w\-.]]; the pattern [[^\w\-.]+] matches the
    maximal runs of the other characters. *)
Definition kept_char (c : N) : bool :=
  word_char c || (c =? 45)%N || (c =? 46)%N.

Fixpoint lstrip (s : list N) : list N :=
  match s with
  | [] => []
  | c :: s' => if isspace c then lstrip s' else s
  end.

Definition rstrip (s : list N) : list N := reverse (lstrip (reverse s)).

(** [s.strip()] *)
Definition strip (s : list N) : list N := rstrip (lstrip s).

(** [re.sub(r"[^\w\-.]+", "_", s)]: every maximal run of characters outside
    the class becomes one underscore; [in_run] says that the preceding
    character belonged to such a run. *)
Fixpoint sub_runs (in_run : bool) (s : list N) : list N :=
  match s with
  | [] => []
  | c :: s' =>
      if kept_char c then c :: sub_runs false s'
      else if in_run then sub_runs true s'
      else 95%N :: sub_runs true s'
  end.

Definition sanitize_name (s : list N) : list N :=
  match sub_runs false (strip s) with
  | [] => codes "output"       (* [s or "output"] *)
  | c :: s' => c :: s'
  end.

End SanitizeName.

(** The two tables restricted to ASCII (no character above 127 is
    alphanumeric or whitespace), for evaluating examples. *)
Definition ascii_only : N -> bool := fun _ => false.

(** ** [main] *)

(** The value of [args.limit_mb]: a [float] when the option is given, the
    [int] default [DEFAULT_LIMIT_MB] otherwise. *)
Inductive number : Type :=
| Int (n : Z)
| Float (x : float).

Definition DEFAULT_LIMIT_MB : number := Int 99.

(** [a * n] for a number [a] and an [int] n. *)
Definition number_mul_int (a : number) (n : Z) : result number :=
  match a with
  | Int m => Ok (Int (m * n))
  | Float x => y ← float_of_int n; mret (Float (SFmul prec emax x y))
  end.

(** [int(a)] *)
Definition int_of_number (a : number) : result Z :=
  match a with
  | Int m => Ok m
  | Float x => int_of_float x
  end.

(** [int(args.limit_mb * 1024 * 1024)] *)
Definition limit_bytes_of (limit_mb : number) : result Z :=
  a ← number_mul_int limit_mb 1024;
  b ← number_mul_int a 1024;
  int_of_number b.

(** Lines 287-293, on the connection to the source: the schema, the zoom
    levels (at least one, or [RuntimeError]) and their estimates. *)
Definition inspect_source : action connection (string * list Z * gmap Z Z) :=
  schema ← get_mbtiles_schema_type;
  zooms ← get_zoom_levels schema;
  match zooms with
  | [] => raise RuntimeError
  | _ :: _ =>
      zoom_bytes ← estimate_zoom_sizes_bytes schema;
      close;;
      mret (schema, zooms, zoom_bytes)
  end.

Section Main.

(** The two Unicode tables of [sanitize_name]. *)
Variable unicode_isalnum : N -> bool.
Variable unicode_isspace : N -> bool.

(** File-system paths, with [outdir / name] and [Path(p).stem] of
    [pathlib]. *)
Variable path : Type.
Context `{path_eq_dec : EqDecision path}.
Variable joinpath : path -> list N -> path.
Variable stem : path -> list N.

Variable getsize : database -> Z.

(** What SQLite makes of the URI [file:{path}?mode=ro], which [connect_ro]
    builds from the path without escaping it.  A path free of [?], [#], [%]
    and of a leading [//] is the file name of the URI and [mode=ro] is in
    effect: the file must exist ([ExistingFile path]).  Otherwise the file
    name ends at the first [?] or [#] of the path and every [%XX] in it is
    decoded, so that another file is named; and the [mode=ro] that the code
    appends is no longer a parameter of its own, so that the mode is the one
    the path spells, or the default one, which creates a missing file
    ([FileOrNew]).  SQLite refuses a URI with an authority or with an
    unknown mode. *)
Inductive uri_target : Type :=
| ExistingFile (file : path)   (* mode=ro, mode=rw *)
| FileOrNew (file : path)      (* mode=rwc, no mode *)
| InMemory                     (* mode=memory *)
| Refused.                     (* invalid authority, no such access mode *)

Variable resolve_uri : path -> uri_target.

(** [Path(p).mkdir(parents=True, exist_ok=True)] in the file system of the
    run: it returns, or raises (an [OSError] when a file is in the way or
    the permission is missing). *)
Variable mkdir : path -> result unit.

(** The parsed command line. *)
Record arguments : Type := Arguments {
  arg_input : path;
  arg_outdir : path;
  arg_prefix : option (list N);
  arg_limit_mb : number;
  arg_overhead : float
}.

(** What [main] and the writers print, one constructor per [print] call. *)
Inductive report : Type :=
| ZoomTooLarge (z est : Z)
| ZoomAloneMayExceed
| ReportInput (p : path)
| ReportSchema (schema : string)
| ReportZooms (first last : Z) (count : nat)
| ReportLimit (limit_mb : number)
| PlannedOutputs (count : nat)
| Writing (i count : nat) (file_name : list N) (zmin zmax : Z)
| FromWriter (l : line)
| WrittenSize (size : Z)
| DoneOutputs
| Outcome (ok : bool) (size zmin zmax : Z) (p : path)
| Tip.

(** The run of [main]: the files by path and the standard output.  Every
    file is a regular file that holds an SQLite database and that the
    process may read, write and delete; the standard output takes every
    line that is printed. *)
Record run : Type := Run {
  files : path -> option database;
  printed : list report
}.

Definition say (r : report) : action run unit :=
  fun st => (Ok tt, Run (files st) (printed st ++ [r])).

(** [if out_path.exists(): out_path.unlink()] *)
Definition unlink_if_exists (p : path) : action run unit :=
  fun st =>
    (Ok tt,
     Run (fun q => if decide (q = p) then None else files st q) (printed st)).

(** [connect_ro(p)]: the database that the connection opens.
    [sqlite3.connect] raises [OperationalError] when SQLite refuses the URI
    and when the file it names must exist and does not; in the creating mode
    a missing file is created empty. *)
Definition open_source (p : path) : action run database :=
  fun st =>
    match resolve_uri p with
    | ExistingFile f =>
        match files st f with
        | Some db => (Ok db, st)
        | None => (Raise OperationalError, st)
        end
    | FileOrNew f =>
        match files st f with
        | Some db => (Ok db, st)
        | None =>
            (Ok empty_database,
             Run (fun q => if decide (q = f) then Some empty_database
                           else files st q)
                 (printed st))
        end
    | InMemory => (Ok empty_database, st)
    | Refused => (Raise OperationalError, st)
    end.

(** The database that [connect_ro] opens for a URI, if it opens one. *)
Definition opened (fs : path -> option database) (t : uri_target)
    : option database :=
  match t with
  | ExistingFile f => fs f
  | FileOrNew f => Some (default empty_database (fs f))
  | InMemory => Some empty_database
  | Refused => None
  end.

(** [f"{prefix}_z{zmin}-{zmax}.mbtiles"] *)
Definition output_name (prefix : list N) (zmin zmax : Z) : list N :=
  prefix ++ codes "_z" ++ codes (str zmin) ++ codes "-" ++ codes (str zmax)
    ++ codes ".mbtiles".

(** The writer at work on the database of the source and on whatever is at
    the output path: what it prints goes to the standard output; when it
    returns, the output file holds what its connection committed.  (When it
    raises, [main] ends, and the content of the output file is not
    described.) *)
Definition run_splitter (schema : string) (src_db : database) (out_path : path)
    (g : list Z) (limit_bytes : Z) : action run Z :=
  fun st =>
    let splitter :=
      if bool_decide (schema = "tiles"%string)
      then split_tiles_schema getsize
      else split_map_images_schema getsize in
    let '(r, p) :=
      splitter src_db (default empty_database (files st out_path)) g limit_bytes in
    (r,
     Run (fun q => if decide (q = out_path)
                   then Some (database_of (dst p)) else files st q)
         (printed st ++ (FromWriter <$> stdout p))).

(** [splitter(in_path, str(out_path), g, limit_bytes)]: the writer opens the
    two paths itself, the source first. *)
Definition call_splitter (schema : string) (in_path out_path : path)
    (g : list Z) (limit_bytes : Z) : action run Z :=
  src_db ← open_source in_path;
  run_splitter schema src_db out_path g limit_bytes.

(** The body of [for i, g in enumerate(groups, start=1)]. *)
Definition write_group (args : arguments) (schema : string) (prefix : list N)
    (limit_bytes : Z) (count : nat)
    (produced : list (path * Z * Z * Z)) (ig : nat * list Z)
    : action run (list (path * Z * Z * Z)) :=
  zmin ← lift (min ig.2);
  zmax ← lift (max ig.2);
  let out_path := joinpath (arg_outdir args) (output_name prefix zmin zmax) in
  unlink_if_exists out_path;;
  say (Writing ig.1 count (output_name prefix zmin zmax) zmin zmax);;
  size ← call_splitter schema (arg_input args) out_path ig.2 limit_bytes;
  say (WrittenSize size);;
  mret (produced ++ [(out_path, size, zmin, zmax)]).

(** The body of [for z in zooms] that warns about oversized levels. *)
Definition warn_if_too_large (zoom_bytes : gmap Z Z) (args : arguments)
    (limit_bytes : Z) (_ : unit) (z : Z) : action run unit :=
  est ← lift (adjusted_estimate zoom_bytes (arg_overhead args) z);
  if limit_bytes <? est
  then say (ZoomTooLarge z est);; say ZoomAloneMayExceed
  else mret tt.

(** [main()] after [parse_args()]. *)
Definition main_from (args : arguments) : action run unit :=
  let prefix :=
    sanitize_name unicode_isalnum unicode_isspace
      match arg_prefix args with
      | Some (c :: s) => c :: s
      | Some [] | None => stem (arg_input args)   (* [args.prefix or ...] *)
      end in
  lift (mkdir (arg_outdir args));;
  limit_bytes ← lift (limit_bytes_of (arg_limit_mb args));
  src_db ← open_source (arg_input args);
  '(schema, zooms, zoom_bytes) ← lift (inspect_source (connect_ro src_db)).1;
  for_each (warn_if_too_large zoom_bytes args limit_bytes) zooms tt;;
  groups ← lift (group_zooms_by_limit zooms zoom_bytes limit_bytes
                   (arg_overhead args));
  say (ReportInput (arg_input args));;
  say (ReportSchema schema);;
  say (ReportZooms (default 0 (head zooms)) (default 0 (last zooms)) (length zooms));;
  say (ReportLimit (arg_limit_mb args));;
  say (PlannedOutputs (length groups));;
  produced ← for_each (write_group args schema prefix limit_bytes (length groups))
                (zip (seq 1 (length groups)) groups) [];
  say DoneOutputs;;
  for_each
    (fun _ '(p, size, zmin, zmax) =>
       say (Outcome (bool_decide (size <= limit_bytes)) size zmin zmax p))
    produced tt;;
  say Tip.

(** What an observer of [main] sees: how it ends and what it printed. *)
Definition main (args : arguments) (fs : path -> option database)
    : result unit * list report :=
  let '(r, st) := main_from args (Run fs []) in (r, printed st).

(** The warnings of the loop over the zoom levels, for a limit. *)
Definition oversize_warnings (zoom_bytes : gmap Z Z) (overhead_factor : float)
    (limit_bytes : Z) (zooms : list Z) : list report :=
  z ← zooms;
  if limit_bytes <? weight zoom_bytes overhead_factor z
  then [ZoomTooLarge z (weight zoom_bytes overhead_factor z); ZoomAloneMayExceed]
  else [].

End Main.

Arguments Arguments {path}.
Arguments arg_input {path}.
Arguments arg_outdir {path}.
Arguments arg_prefix {path}.
Arguments arg_limit_mb {path}.
Arguments arg_overhead {path}.
Arguments ZoomTooLarge {path}.
Arguments ZoomAloneMayExceed {path}.
Arguments ReportInput {path}.
Arguments ReportSchema {path}.
Arguments ReportZooms {path}.
Arguments ReportLimit {path}.
Arguments PlannedOutputs {path}.
Arguments Writing {path}.
Arguments FromWriter {path}.
Arguments WrittenSize {path}.
Arguments DoneOutputs {path}.
Arguments Outcome {path}.
Arguments Tip {path}.
Arguments Run {path}.
Arguments files {path}.
Arguments printed {path}.
Arguments say {path}.
Arguments unlink_if_exists {path path_eq_dec}.
Arguments ExistingFile {path}.
Arguments FileOrNew {path}.
Arguments InMemory {path}.
Arguments Refused {path}.
Arguments open_source {path path_eq_dec}.
Arguments opened {path}.
Arguments run_splitter {path path_eq_dec}.
Arguments call_splitter {path path_eq_dec}.
Arguments write_group {path path_eq_dec}.
Arguments warn_if_too_large {path}.
Arguments main_from _ _ {path path_eq_dec}.
Arguments main _ _ {path path_eq_dec}.
Arguments oversize_warnings {path}.

(** A [tiles] archive without the unique index: four tiles at the zoom
    levels 3, 1, 3 and 0, in that row order, one of them with a NULL blob
    and one with an empty blob. *)
Definition unsorted_tiles_archive : database :=
  Database (Some [TilesRow 3 0 0 (Some [Byte.x01]);
                  TilesRow 1 0 0 (Some [Byte.x02; Byte.x03]);
                  TilesRow 3 1 0 None;
                  TilesRow 0 0 0 (Some [])]) false
           None false None false None.

(** A [map]/[images] archive without the index on [map]: level 3 has two
    coordinate rows that share a 3-byte image, level 5 has a coordinate row
    whose image is missing. *)
Definition partly_dangling_archive : database :=
  Database None false
           (Some [MapRow 5 0 0 "a"; MapRow 3 0 0 "b"; MapRow 3 1 0 "b"]) false
           (Some [ImagesRow "b" (Some [Byte.x01; Byte.x02; Byte.x03])]) true
           None.

(** * Proofs *)

(** ** The grouper *)

Section GrouperProofs.

Variable zoom_bytes : gmap Z Z.
Variable limit_bytes : Z.
Variable overhead_factor : float.

Abbreviation est := (adjusted_estimate zoom_bytes overhead_factor).
Abbreviation total := (group_estimate zoom_bytes overhead_factor).
Abbreviation step := (group_step zoom_bytes limit_bytes overhead_factor).
Abbreviation inv := (packed zoom_bytes limit_bytes overhead_factor).

Lemma group_estimate_snoc g z s e :
  total g = Ok s -> est z = Ok e -> total (g ++ [z]) = Ok (s + e).
Proof.
  revert s. induction g as [|y g IH]; intros s Hg Hz; simpl in *.
  - inversion Hg; subst. rewrite Hz. simpl. f_equal. lia.
  - destruct (est y) as [ey|] eqn:Hy; simpl in *; [|discriminate].
    destruct (total g) as [sg|] eqn:Hsg; simpl in *; [|discriminate].
    inversion Hg; subst. rewrite (IH sg eq_refl Hz). simpl. f_equal. lia.
Qed.

Lemma group_estimate_singleton z e : est z = Ok e -> total [z] = Ok e.
Proof. intros Hz. simpl. rewrite Hz. simpl. f_equal. lia. Qed.

Lemma group_step_ok st z st' : step st z = Ok st' -> is_ok (est z).
Proof.
  unfold group_step. destruct (est z) as [e|]; [eexists; eauto|discriminate].
Qed.

Lemma for_each_group_step_ok zs :
  forall st st', for_each step zs st = Ok st' -> Forall (fun z => is_ok (est z)) zs.
Proof.
  induction zs as [|z zs IH]; intros st st' H; [constructor|].
  simpl in H. destruct (step st z) as [st1|] eqn:H1; simpl in H; [|discriminate].
  constructor; eauto using group_step_ok.
Qed.

(** The first iteration: [current] is empty, the level opens a group. *)
Lemma group_step_first z e :
  est z = Ok e ->
  step (Grouping [] [] 0) z = Ok (Grouping [] [z] e) /\
  inv [z] [[z]] (Grouping [] [z] e).
Proof.
  intros Hz. split.
  - unfold group_step. rewrite Hz. reflexivity.
  - split; simpl.
    + reflexivity.
    + reflexivity.
    + repeat constructor. discriminate.
    + by apply group_estimate_singleton.
    + repeat constructor. simpl. lia.
    + intros i g z' rest _ H. destruct i; discriminate.
Qed.

(** Every later iteration keeps the invariant. *)
Lemma group_step_packed seen G st z e :
  inv seen G st -> est z = Ok e ->
  exists st' G', step st z = Ok st' /\ inv (seen ++ [z]) G' st'.
Proof.
  intros [HG Hcat Hne Hest Hbound Hbdry] Hz.
  assert (Hcur : current st <> []).
  { subst G. apply Forall_app in Hne as [_ Hc]. by inversion Hc. }
  unfold group_step. rewrite Hz. simpl.
  destruct (current st) as [|c cs] eqn:Ecur; [done|].
  destruct (Z.leb_spec (current_est st + e) limit_bytes) as [Hle|Hgt].
  - (* the level joins the current group *)
    eexists _, (groups st ++ [(c :: cs) ++ [z]]). split; [reflexivity|].
    subst G. split; simpl.
    + reflexivity.
    + rewrite concat_app in *. simpl in *. rewrite !app_nil_r in *.
      rewrite <- Hcat. by rewrite <- app_assoc.
    + apply Forall_app in Hne as [Hg _]. apply Forall_app. split; [done|].
      repeat constructor. discriminate.
    + by apply (group_estimate_snoc (c :: cs)).
    + apply Forall_app in Hbound as [Hg _]. apply Forall_app. split; [done|].
      repeat constructor. intros _. exists (current_est st + e). split; [|done].
      by apply (group_estimate_snoc (c :: cs)).
    + intros i g z' rest Hi HSi.
      destruct (decide (S i < length (groups st))%nat) as [Hlt|Hge].
      * apply (Hbdry i g z' rest).
        -- rewrite lookup_app_l in Hi by lia. rewrite lookup_app_l by lia. done.
        -- rewrite lookup_app_l in HSi by lia. rewrite lookup_app_l by lia. done.
      * assert (S i = length (groups st)) as HSi'.
        { apply lookup_lt_Some in HSi. rewrite length_app in HSi. simpl in HSi. lia. }
        rewrite lookup_app_l in Hi by lia.
        rewrite HSi', lookup_app_r, Nat.sub_diag in HSi by lia.
        simpl in HSi. inversion HSi; subst z' rest.
        apply (Hbdry i g c cs).
        -- rewrite lookup_app_l by lia. done.
        -- rewrite HSi', lookup_app_r, Nat.sub_diag by lia. done.
  - (* the level opens a new group *)
    eexists _, ((groups st ++ [c :: cs]) ++ [[z]]). split; [reflexivity|].
    subst G. split; simpl.
    + reflexivity.
    + rewrite concat_app. simpl. by rewrite Hcat.
    + apply Forall_app. split; [done|]. repeat constructor. discriminate.
    + by apply group_estimate_singleton.
    + apply Forall_app. split; [done|]. repeat constructor. simpl. lia.
    + intros i g z' rest Hi HSi.
      destruct (decide (S i < length (groups st ++ [c :: cs]))%nat) as [Hlt|Hge].
      * apply (Hbdry i g z' rest).
        -- rewrite lookup_app_l in Hi by lia. done.
        -- rewrite lookup_app_l in HSi by lia. done.
      * assert (S i = length (groups st ++ [c :: cs])) as HSi'.
        { apply lookup_lt_Some in HSi. rewrite length_app in HSi. simpl in HSi. lia. }
        rewrite HSi', lookup_app_r, Nat.sub_diag in HSi by lia.
        simpl in HSi. inversion HSi; subst z' rest.
        rewrite lookup_app_l in Hi by lia.
        rewrite length_app in HSi'. simpl in HSi'.
        assert (i = length (groups st)) as -> by lia.
        rewrite lookup_app_r, Nat.sub_diag in Hi by lia.
        simpl in Hi. inversion Hi; subst g.
        exists (current_est st), e. repeat split; [done..|lia].
Qed.

Lemma for_each_group_step_packed zs :
  forall seen G st,
    inv seen G st -> Forall (fun z => is_ok (est z)) zs ->
    exists st' G', for_each step zs st = Ok st' /\ inv (seen ++ zs) G' st'.
Proof.
  induction zs as [|z zs IH]; intros seen G st Hinv Hok.
  - exists st, G. rewrite app_nil_r. done.
  - inversion Hok as [|? ? [e Hz] Hok']; subst.
    destruct (group_step_packed _ _ _ _ _ Hinv Hz) as (st1 & G1 & Hstep & Hinv1).
    destruct (IH _ _ _ Hinv1 Hok') as (st2 & G2 & Hloop & Hinv2).
    exists st2, G2. simpl. rewrite Hstep. simpl.
    rewrite <- app_assoc in Hinv2. done.
Qed.

(** On a non-empty input whose adjusted estimates are all computable the
    grouper returns, and what it returns satisfies the invariant. *)
Lemma group_zooms_by_limit_packed zooms :
  zooms <> [] -> Forall (fun z => is_ok (est z)) zooms ->
  exists G st,
    group_zooms_by_limit zooms zoom_bytes limit_bytes overhead_factor = Ok G /\
    inv zooms G st.
Proof.
  intros Hne Hok. destruct zooms as [|z zs]; [done|].
  inversion Hok as [|? ? [e Hz] Hok']; subst.
  destruct (group_step_first z e Hz) as [Hstep Hinv].
  destruct (for_each_group_step_packed zs _ _ _ Hinv Hok') as (st & G & Hloop & Hinv').
  exists G, st. split; [|done].
  unfold group_zooms_by_limit. simpl. rewrite Hstep. simpl. rewrite Hloop. simpl.
  destruct Hinv' as [HG _ Hnonempty _ _ _].
  destruct (current st) eqn:Ecur.
  - subst G. apply Forall_app in Hnonempty as [_ Hc]. by inversion Hc.
  - by rewrite HG.
Qed.

Lemma group_zooms_by_limit_nil :
  group_zooms_by_limit [] zoom_bytes limit_bytes overhead_factor = Ok [].
Proof. reflexivity. Qed.

Lemma group_zooms_by_limit_ok zooms G :
  group_zooms_by_limit zooms zoom_bytes limit_bytes overhead_factor = Ok G ->
  Forall (fun z => is_ok (est z)) zooms.
Proof.
  unfold group_zooms_by_limit. intros H.
  destruct (for_each step zooms (Grouping [] [] 0)) as [st|] eqn:Hloop;
    [|discriminate].
  eauto using for_each_group_step_ok.
Qed.

End GrouperProofs.

Lemma NoDup_concat_lookup_unique (G : list (list Z)) (i j : nat) g g' z :
  NoDup (concat G) -> G !! i = Some g -> G !! j = Some g' ->
  z ∈ g -> z ∈ g' -> i = j.
Proof.
  revert i j. induction G as [|h G IH]; intros i j Hnd Hi Hj Hz Hz'.
  - by rewrite lookup_nil in Hi.
  - simpl in Hnd. apply NoDup_app in Hnd as (Hh & Hdisj & HG).
    destruct i as [|i], j as [|j]; simpl in *.
    + reflexivity.
    + inversion Hi; subst h. exfalso. apply (Hdisj z Hz).
      apply list_elem_of_In, in_concat. exists g'. split.
      * apply list_elem_of_In. by eapply list_elem_of_lookup_2.
      * by apply list_elem_of_In.
    + inversion Hj; subst h. exfalso. apply (Hdisj z Hz').
      apply list_elem_of_In, in_concat. exists g. split.
      * apply list_elem_of_In. by eapply list_elem_of_lookup_2.
      * by apply list_elem_of_In.
    + f_equal. by apply IH.
Qed.

Lemma elem_of_concat_lookup (G : list (list Z)) z :
  z ∈ concat G -> exists i g, G !! i = Some g /\ z ∈ g.
Proof.
  intros Hz. apply list_elem_of_In, in_concat in Hz as (g & Hg & Hz).
  apply list_elem_of_In, list_elem_of_lookup in Hg as [i Hi].
  exists i, g. split; [done|]. by apply list_elem_of_In.
Qed.

(** The product of [0.0] and a finite float is a zero, which [int]
    truncates to 0. *)
Lemma adjusted_estimate_absent zoom_bytes overhead_factor z :
  is_finite overhead_factor = true -> zoom_bytes !! z = None ->
  adjusted_estimate zoom_bytes overhead_factor z = Ok 0.
Proof.
  intros Hfin Hz. unfold adjusted_estimate. rewrite Hz. simpl.
  destruct overhead_factor; try discriminate; reflexivity.
Qed.

Lemma group_zooms_by_limit_returns zooms zoom_bytes limit_bytes overhead_factor :
  Forall (fun z => is_ok (adjusted_estimate zoom_bytes overhead_factor z)) zooms ->
  is_ok (group_zooms_by_limit zooms zoom_bytes limit_bytes overhead_factor).
Proof.
  intros Hok. destruct zooms as [|z0 zs].
  - by exists [].
  - destruct (group_zooms_by_limit_packed zoom_bytes limit_bytes overhead_factor
                (z0 :: zs)) as (G & st & HG & _); [done|done|].
    by exists G.
Qed.

(** C3 (greedy packing bound): in the list of groups that
    [group_zooms_by_limit] returns, every group with more than one member has
    a sum of adjusted estimates [int(estimate * overhead_factor)] that is at
    most [limit_bytes], and at every boundary between a group and the next
    one, the first level of the next group added to the total of the group
    before it exceeds [limit_bytes].  This holds for every input list, every
    estimates mapping, every limit and every overhead factor. *)
Theorem group_zooms_by_limit_packing_bound
    (zooms : list Z) (zoom_bytes : gmap Z Z) (limit_bytes : Z)
    (overhead_factor : float) (G : list (list Z)) :
  group_zooms_by_limit zooms zoom_bytes limit_bytes overhead_factor = Ok G ->
  (forall g, g ∈ G -> (1 < length g)%nat ->
     within_limit zoom_bytes limit_bytes overhead_factor g) /\
  (forall (i : nat) g z rest,
     G !! i = Some g -> G !! S i = Some (z :: rest) ->
     overflows zoom_bytes limit_bytes overhead_factor g z).
Proof.
  intros HG. pose proof (group_zooms_by_limit_ok _ _ _ _ _ HG) as Hok.
  destruct zooms as [|z0 zs].
  - rewrite group_zooms_by_limit_nil in HG. inversion HG; subst G. split.
    + intros g Hg. by apply elem_of_nil in Hg.
    + intros i g z rest Hi. by rewrite lookup_nil in Hi.
  - destruct (group_zooms_by_limit_packed zoom_bytes limit_bytes overhead_factor
                (z0 :: zs)) as (G' & st & HG' & Hinv); [done|done|].
    rewrite HG in HG'. inversion HG'; subst G'. split.
    + intros g Hg. by apply (proj1 (Forall_forall _ _) (packed_bound _ _ _ _ _ _ Hinv)).
    + apply (packed_boundary _ _ _ _ _ _ Hinv).
Qed.

Lemma group_zooms_by_limit_packing_bound_witness :
  group_zooms_by_limit [0; 1; 2; 3] scenario_bytes 10000000 overhead_1_25
    = Ok [[0; 1]; [2]; [3]] /\
  ((forall g, g ∈ [[0; 1]; [2]; [3]] -> (1 < length g)%nat ->
      within_limit scenario_bytes 10000000 overhead_1_25 g) /\
   (forall (i : nat) g z rest,
      [[0; 1]; [2]; [3]] !! i = Some g ->
      [[0; 1]; [2]; [3]] !! S i = Some (z :: rest) ->
      overflows scenario_bytes 10000000 overhead_1_25 g z)).
Proof.
  split; [vm_compute; reflexivity|].
  apply (group_zooms_by_limit_packing_bound [0; 1; 2; 3]).
  vm_compute; reflexivity.
Defined.

(** C4, as amended (ordered partition): whenever the adjusted estimate
    [int(estimate * overhead_factor)] of every input level is computable
    (the float product is neither infinite nor NaN), [group_zooms_by_limit]
    returns a list of groups whose concatenation is exactly the input list,
    in which no group is empty, and, when the input levels are distinct, in
    which every input level belongs to exactly one group. *)
Theorem group_zooms_by_limit_partition
    (zooms : list Z) (zoom_bytes : gmap Z Z) (limit_bytes : Z)
    (overhead_factor : float) :
  Forall (fun z => is_ok (adjusted_estimate zoom_bytes overhead_factor z)) zooms ->
  exists G,
    group_zooms_by_limit zooms zoom_bytes limit_bytes overhead_factor = Ok G /\
    concat G = zooms /\
    Forall (fun g => g <> []) G /\
    (NoDup zooms ->
     forall z, z ∈ zooms ->
       exists (i : nat) g, G !! i = Some g /\ z ∈ g /\
         forall (j : nat) g', G !! j = Some g' -> z ∈ g' -> j = i).
Proof.
  intros Hok. destruct zooms as [|z0 zs].
  - exists []. repeat split; [constructor|].
    intros _ z Hz. by apply elem_of_nil in Hz.
  - destruct (group_zooms_by_limit_packed zoom_bytes limit_bytes overhead_factor
                (z0 :: zs)) as (G & st & HG & Hinv); [done|done|].
    exists G. split; [done|]. split; [apply (packed_concat _ _ _ _ _ _ Hinv)|].
    split; [apply (packed_nonempty _ _ _ _ _ _ Hinv)|].
    intros Hnd z Hz. rewrite <- (packed_concat _ _ _ _ _ _ Hinv) in Hz, Hnd.
    destruct (elem_of_concat_lookup G z Hz) as (i & g & Hi & Hzg).
    exists i, g. repeat split; [done..|].
    intros j g' Hj Hzg'. by eapply (NoDup_concat_lookup_unique G j i).
Qed.

Lemma group_zooms_by_limit_partition_witness :
  Forall (fun z => is_ok (adjusted_estimate scenario_bytes overhead_1_25 z))
         [0; 1; 2; 3] /\
  exists G,
    group_zooms_by_limit [0; 1; 2; 3] scenario_bytes 10000000 overhead_1_25 = Ok G /\
    concat G = [0; 1; 2; 3] /\
    Forall (fun g => g <> []) G /\
    (NoDup [0; 1; 2; 3] ->
     forall z, z ∈ [0; 1; 2; 3] ->
       exists (i : nat) g, G !! i = Some g /\ z ∈ g /\
         forall (j : nat) g', G !! j = Some g' -> z ∈ g' -> j = i).
Proof.
  assert (H : Forall (fun z => is_ok (adjusted_estimate scenario_bytes overhead_1_25 z))
                     [0; 1; 2; 3]).
  { repeat constructor; eexists; vm_compute; reflexivity. }
  split; [exact H|].
  apply (group_zooms_by_limit_partition [0; 1; 2; 3] scenario_bytes 10000000
           overhead_1_25 H).
Defined.

(** C4, counterexample: with the largest finite float as overhead factor
    (a float that is at least 1) and an estimate of 2 bytes, the product
    overflows to infinity, [int] raises [OverflowError], and the grouper
    returns nothing for the one-level input. *)
Lemma group_zooms_by_limit_not_total :
  SFleb (float_of_dyadic 1 0) (SFmax_float prec emax) = true /\
  group_zooms_by_limit [0] {[ 0 := 2 ]} 1 (SFmax_float prec emax)
    = Raise OverflowError /\
  ~ (exists G,
       group_zooms_by_limit [0] {[ 0 := 2 ]} 1 (SFmax_float prec emax) = Ok G /\
       concat G = [0]).
Proof.
  split; [vm_compute; reflexivity|].
  split; [vm_compute; reflexivity|].
  intros (G & HG & _). vm_compute in HG. discriminate.
Qed.

(** The literal [1.25] is the binary64 number [5 * 2^50 * 2^-52], and the
    adjusted estimates of the scenario are exact. *)
Example overhead_1_25_exact :
  overhead_1_25 = S754_finite false 5629499534213120 (-52).
Proof. vm_compute. reflexivity. Qed.

Example scenario_adjusted_estimates :
  adjusted_estimate scenario_bytes overhead_1_25 <$> [0; 1; 2; 3]
  = [Ok 1250; Ok 2500; Ok 62500000; Ok 250].
Proof. vm_compute. reflexivity. Qed.

Example int_of_float_truncates :
  int_of_float (float_of_dyadic 11 2) = Ok 2 /\
  int_of_float (float_of_dyadic (-11) 2) = Ok (-2).
Proof. vm_compute. split; reflexivity. Qed.

(** C6 (scenario): zoom levels 0..3 with estimates 1000, 2000, 50000000 and
    200 bytes, overhead factor 1.25 and a limit of 10,000,000 bytes are
    grouped into [0,1], [2], [3], in that order. *)
Theorem group_zooms_by_limit_scenario :
  group_zooms_by_limit [0; 1; 2; 3] scenario_bytes 10000000 overhead_1_25
  = Ok [[0; 1]; [2]; [3]].
Proof. vm_compute. reflexivity. Qed.

(** C10, as amended (levels without an estimate): for every finite overhead
    factor, a zoom level that is absent from the estimates mapping
    contributes exactly 0 bytes, and [group_zooms_by_limit] returns without
    raising provided the adjusted estimate of each input level that does
    have an entry is computable. *)
Theorem group_zooms_by_limit_absent_levels
    (zooms : list Z) (zoom_bytes : gmap Z Z) (limit_bytes : Z)
    (overhead_factor : float) :
  is_finite overhead_factor = true ->
  (forall z b, z ∈ zooms -> zoom_bytes !! z = Some b ->
     is_ok (adjusted_estimate zoom_bytes overhead_factor z)) ->
  (forall z, zoom_bytes !! z = None ->
     adjusted_estimate zoom_bytes overhead_factor z = Ok 0) /\
  is_ok (group_zooms_by_limit zooms zoom_bytes limit_bytes overhead_factor).
Proof.
  intros Hfin Hcov. split.
  - intros z Hz. by apply adjusted_estimate_absent.
  - apply group_zooms_by_limit_returns.
    apply Forall_forall. intros z Hz.
    destruct (zoom_bytes !! z) as [b|] eqn:Hb.
    + by apply (Hcov z b).
    + exists 0. by apply adjusted_estimate_absent.
Qed.

(** ** Schema detection *)

Lemma table_exists_tiles c :
  table_exists "tiles" c = (Ok (present (tiles (database_of c))), c).
Proof.
  destruct c as [[t ti m mi im pk md] tx].
  destruct t, ti, m, mi, im, md; reflexivity.
Qed.

Lemma table_exists_map c :
  table_exists "map" c = (Ok (present (map_table (database_of c))), c).
Proof.
  destruct c as [[t ti m mi im pk md] tx].
  destruct t, ti, m, mi, im, md; reflexivity.
Qed.

Lemma table_exists_images c :
  table_exists "images" c = (Ok (present (images (database_of c))), c).
Proof.
  destruct c as [[t ti m mi im pk md] tx].
  destruct t, ti, m, mi, im, md; reflexivity.
Qed.

Lemma table_exists_metadata c :
  table_exists "metadata" c = (Ok (present (metadata (database_of c))), c).
Proof.
  destruct c as [[t ti m mi im pk md] tx].
  destruct t, ti, m, mi, im, md; reflexivity.
Qed.

Lemma get_mbtiles_schema_type_eq c :
  get_mbtiles_schema_type c =
  ((if present (tiles (database_of c)) then Ok "tiles"%string
    else if present (map_table (database_of c)) && present (images (database_of c))
         then Ok "map_images"%string
         else Raise RuntimeError), c).
Proof.
  unfold get_mbtiles_schema_type, mbind, action_bind.
  rewrite table_exists_tiles.
  destruct (present (tiles (database_of c))); [reflexivity|].
  rewrite table_exists_map.
  destruct (present (map_table (database_of c))).
  - rewrite table_exists_images.
    destruct (present (images (database_of c))); reflexivity.
  - reflexivity.
Qed.

Lemma present_is_Some {A} (t : option A) : present t = true <-> is_Some t.
Proof.
  destruct t; simpl; split; intros H; try done; try (by eexists); by destruct H.
Qed.

(** C7 (schema detection): on every connection the detector leaves the
    connection as it found it and returns "tiles" exactly when the [tiles]
    table exists, "map_images" exactly when it does not and both [map] and
    [images] exist, and raises its [RuntimeError] (unsupported schema) in
    exactly the remaining cases. *)
Theorem get_mbtiles_schema_type_classifies (c : connection) :
  exists r,
    get_mbtiles_schema_type c = (r, c) /\
    (r = Ok "tiles"%string <-> is_Some (tiles (database_of c))) /\
    (r = Ok "map_images"%string <->
       tiles (database_of c) = None /\
       is_Some (map_table (database_of c)) /\ is_Some (images (database_of c))) /\
    (r = Raise RuntimeError <->
       tiles (database_of c) = None /\
       ~ (is_Some (map_table (database_of c)) /\ is_Some (images (database_of c)))).
Proof.
  eexists. split; [apply get_mbtiles_schema_type_eq|].
  destruct (tiles (database_of c)) as [t|], (map_table (database_of c)) as [m|],
    (images (database_of c)) as [im|]; simpl; rewrite ?is_Some_alt;
    repeat split; intros; destruct_and?; try discriminate; try done;
    try (exfalso; tauto); tauto.
Qed.

(** ** The size estimate *)

Lemma foldl_add_sum_Z y ys : foldl Z.add y ys = y + sum_Z ys.
Proof.
  revert y. induction ys as [|x ys IH]; intros y; simpl.
  - lia.
  - rewrite IH. unfold sum_Z. simpl. lia.
Qed.

(** SUM ignores NULLs; [bytes or 0] turns the NULL of an all-NULL group
    into 0: together, a NULL counts for 0. *)
Lemma sql_sum_default xs : default 0 (sql_sum xs) = sum_Z (default 0 <$> xs).
Proof.
  assert (H : sum_Z (omap id xs) = sum_Z (default 0 <$> xs)).
  { induction xs as [|[x|] xs IH]; [reflexivity|..].
    - change (x + sum_Z (omap id xs) = x + sum_Z (default 0 <$> xs)). lia.
    - change (sum_Z (omap id xs) = 0 + sum_Z (default 0 <$> xs)). lia. }
  unfold sql_sum. rewrite <- H. destruct (omap id xs) as [|y ys]; simpl.
  - reflexivity.
  - rewrite foldl_add_sum_Z. reflexivity.
Qed.

Lemma filter_fmap_comm {A B} (f : A -> B) (P : B -> Prop)
    `{!forall y, Decision (P y)} (l : list A) :
  filter P (f <$> l) = f <$> filter (fun x => P (f x)) l.
Proof.
  induction l as [|x l IH]; [reflexivity|].
  rewrite fmap_cons, !filter_cons. destruct (decide (P (f x))).
  - rewrite fmap_cons. by f_equal.
  - done.
Qed.

Lemma distinct_ordered_elem k ks : k ∈ distinct_ordered ks <-> k ∈ ks.
Proof.
  unfold distinct_ordered. rewrite merge_sort_Permutation.
  apply elem_of_remove_dups.
Qed.

Lemma distinct_ordered_NoDup ks : NoDup (distinct_ordered ks).
Proof.
  unfold distinct_ordered. rewrite merge_sort_Permutation.
  apply NoDup_remove_dups.
Qed.

Lemma group_by_sum_keys rows : (group_by_sum rows).*1 = distinct_ordered rows.*1.
Proof.
  unfold group_by_sum. rewrite <- list_fmap_compose.
  induction (distinct_ordered rows.*1) as [|k ks IH]; simpl; [done|by f_equal].
Qed.

Lemma zoom_bytes_of_rows_notin rows :
  forall (d : gmap Z Z) k,
    k ∉ rows.*1 ->
    foldl (fun d r => <[r.1 := default 0 r.2]> d) d rows !! k = d !! k.
Proof.
  induction rows as [|[k' v'] rows IH]; intros d k Hk; simpl; [done|].
  rewrite fmap_cons in Hk. apply not_elem_of_cons in Hk as [Hne Hk].
  rewrite IH by done. simpl in Hne. by rewrite lookup_insert_ne.
Qed.

Lemma zoom_bytes_of_rows_in rows :
  forall (d : gmap Z Z) k v,
    NoDup rows.*1 -> (k, v) ∈ rows ->
    foldl (fun d r => <[r.1 := default 0 r.2]> d) d rows !! k = Some (default 0 v).
Proof.
  induction rows as [|[k' v'] rows IH]; intros d k v Hnd Hin; simpl.
  - by apply elem_of_nil in Hin.
  - rewrite fmap_cons in Hnd. apply NoDup_cons in Hnd as [Hk' Hnd].
    apply elem_of_cons in Hin as [Heq|Hin].
    + inversion Heq; subst k' v'. rewrite zoom_bytes_of_rows_notin by done.
      simpl. by rewrite lookup_insert_eq.
    + by apply IH.
Qed.

(** The dictionary built from a GROUP BY ... SUM(...) result: one entry for
    every key that occurs among the grouped rows, none for any other key. *)
Lemma zoom_bytes_of_group_by_sum rows k :
  zoom_bytes_of_rows (group_by_sum rows) !! k =
  if decide (k ∈ rows.*1)
  then Some (sum_Z (default 0 <$> (filter (fun r => r.1 = k) rows).*2))
  else None.
Proof.
  unfold zoom_bytes_of_rows. destruct (decide (k ∈ rows.*1)) as [Hin|Hnotin].
  - rewrite <- sql_sum_default.
    apply zoom_bytes_of_rows_in.
    + rewrite group_by_sum_keys. apply distinct_ordered_NoDup.
    + unfold group_by_sum. apply list_elem_of_fmap.
      exists k. split; [reflexivity|]. by apply distinct_ordered_elem.
  - rewrite zoom_bytes_of_rows_notin; [done|].
    rewrite group_by_sum_keys. by rewrite distinct_ordered_elem.
Qed.

Lemma get_zoom_levels_tiles c rows :
  tiles (database_of c) = Some rows ->
  get_zoom_levels "tiles" c = (Ok (distinct_ordered (zoom_level <$> rows)), c).
Proof.
  intros H. unfold get_zoom_levels. simpl.
  unfold execute_select, select_zoom_levels_tiles. by rewrite H.
Qed.

Lemma estimate_zoom_sizes_bytes_tiles c rows :
  tiles (database_of c) = Some rows ->
  estimate_zoom_sizes_bytes "tiles" c =
  (Ok (zoom_bytes_of_rows
         (group_by_sum ((fun r => (zoom_level r, sql_length (tile_data r))) <$> rows))),
   c).
Proof.
  intros H. unfold estimate_zoom_sizes_bytes. simpl.
  unfold mbind, action_bind, execute_select, select_zoom_bytes_tiles. by rewrite H.
Qed.

Lemma get_zoom_levels_map schema c ms :
  schema <> "tiles"%string -> map_table (database_of c) = Some ms ->
  get_zoom_levels schema c = (Ok (distinct_ordered (map_zoom_level <$> ms)), c).
Proof.
  intros Hs H. unfold get_zoom_levels. rewrite bool_decide_eq_false_2 by done.
  unfold execute_select, select_zoom_levels_map. by rewrite H.
Qed.

Lemma estimate_zoom_sizes_bytes_map_images schema c ms imgs :
  schema <> "tiles"%string ->
  map_table (database_of c) = Some ms -> images (database_of c) = Some imgs ->
  estimate_zoom_sizes_bytes schema c =
  (Ok (zoom_bytes_of_rows
         (group_by_sum
            ((fun mi => (map_zoom_level mi.1, sql_length (images_tile_data mi.2)))
               <$> join_map_images ms imgs))),
   c).
Proof.
  intros Hs Hm Hi. unfold estimate_zoom_sizes_bytes.
  rewrite bool_decide_eq_false_2 by done.
  unfold mbind, action_bind, execute_select, select_zoom_bytes_map_images.
  by rewrite Hm, Hi.
Qed.

Lemma filter_nil_iff_not_elem {A} (P : A -> Prop) `{!forall x, Decision (P x)}
    (l : list A) :
  filter P l = [] <-> forall x, x ∈ l -> ~ P x.
Proof.
  split.
  - intros Hf x Hx HP. by apply (filter_nil_not_elem_of P l x).
  - intros Hall. induction l as [|x l IH]; [done|].
    rewrite filter_cons. destruct (decide (P x)) as [HP|_].
    + exfalso. apply (Hall x); [left|done].
    + apply IH. intros y Hy. apply Hall. by right.
Qed.

Lemma tiles_entry rows z :
  z ∈ zoom_level <$> rows ->
  zoom_bytes_of_rows
    (group_by_sum ((fun r => (zoom_level r, sql_length (tile_data r))) <$> rows)) !! z
  = Some (sum_Z ((fun r => payload (tile_data r))
                   <$> filter (fun r => zoom_level r = z) rows)).
Proof.
  intros Hz. rewrite zoom_bytes_of_group_by_sum.
  rewrite <- list_fmap_compose. simpl.
  rewrite decide_True by done.
  rewrite (filter_fmap_comm _ (fun r : Z * option Z => r.1 = z)).
  rewrite <- !list_fmap_compose. reflexivity.
Qed.

Lemma map_images_entry ms imgs z :
  zoom_bytes_of_rows
    (group_by_sum
       ((fun mi => (map_zoom_level mi.1, sql_length (images_tile_data mi.2)))
          <$> join_map_images ms imgs)) !! z
  = match filter (fun mi => map_zoom_level mi.1 = z) (join_map_images ms imgs) with
    | [] => None
    | mi :: rest =>
        Some (sum_Z ((fun mi => payload (images_tile_data mi.2)) <$> (mi :: rest)))
    end.
Proof.
  rewrite zoom_bytes_of_group_by_sum.
  rewrite <- list_fmap_compose.
  rewrite (filter_fmap_comm _ (fun r : Z * option Z => r.1 = z)).
  rewrite <- !list_fmap_compose.
  set (F := filter (fun mi => map_zoom_level mi.1 = z) (join_map_images ms imgs)).
  match goal with
  | |- context [sum_Z (_ <$> ?l)] => change l with F
  end.
  destruct F as [|mi rest] eqn:Hf; subst F.
  - rewrite decide_False; [done|].
    intros Hin. apply list_elem_of_fmap in Hin as (mi & Hmi & Hin).
    by apply (proj1 (filter_nil_iff_not_elem _ _) Hf mi Hin).
  - rewrite decide_True; [done|].
    assert (Hmi : mi ∈ filter (fun mi => map_zoom_level mi.1 = z)
                    (join_map_images ms imgs)) by (rewrite Hf; left).
    apply list_elem_of_filter in Hmi as [Hz Hin].
    apply list_elem_of_fmap. by exists mi.
Qed.

(** C5, as amended (coverage of the estimate): when the tables of the schema
    variant exist, zoom enumeration and the size estimator both return and
    leave the connection unchanged.  For the [tiles] schema the mapping has
    an entry for every enumerated zoom level, equal to the sum of the blob
    lengths at that level with a NULL blob counting for 0 (so the entry is
    there even when the total is 0).  For the [map]/[images] schema it has an
    entry, computed the same way over the joined rows, exactly for the
    enumerated levels at which at least one coordinate row has an image row
    with its tile_id; an enumerated level without such a row has no entry. *)
Theorem estimate_zoom_sizes_bytes_entries (schema : string) (c : connection) :
  has_schema_tables schema (database_of c) ->
  exists zs est,
    get_zoom_levels schema c = (Ok zs, c) /\
    estimate_zoom_sizes_bytes schema c = (Ok est, c) /\
    forall z, z ∈ zs ->
      (schema = "tiles"%string ->
         est !! z = Some (tiles_level_bytes (database_of c) z)) /\
      (schema <> "tiles"%string -> joined_at_level (database_of c) z <> [] ->
         est !! z = Some (map_images_level_bytes (database_of c) z)) /\
      (schema <> "tiles"%string -> joined_at_level (database_of c) z = [] ->
         est !! z = None).
Proof.
  unfold has_schema_tables. intros H.
  destruct (decide (schema = "tiles"%string)) as [->|Hs].
  - simpl in H. destruct H as [rows Hrows].
    eexists _, _. split; [by apply get_zoom_levels_tiles|].
    split; [by apply estimate_zoom_sizes_bytes_tiles|].
    intros z Hz. rewrite distinct_ordered_elem in Hz.
    split; [|split]; [|done..].
    intros _. unfold tiles_level_bytes. rewrite Hrows. simpl.
    by apply tiles_entry.
  - rewrite bool_decide_eq_false_2 in H by done.
    destruct H as [[ms Hms] [imgs Himgs]].
    eexists _, _. split; [by apply get_zoom_levels_map|].
    split; [by apply estimate_zoom_sizes_bytes_map_images|].
    intros z Hz. split; [done|].
    unfold map_images_level_bytes, joined_at_level. rewrite Hms, Himgs. simpl.
    rewrite map_images_entry.
    destruct (filter (fun mi => map_zoom_level mi.1 = z) (join_map_images ms imgs));
      split; intros _ Hj; done.
Qed.

Lemma estimate_zoom_sizes_bytes_entries_witness :
  has_schema_tables "map_images" (database_of (connect partly_dangling_archive)) /\
  joined_at_level partly_dangling_archive 3 <> [] /\
  joined_at_level partly_dangling_archive 5 = [] /\
  exists zs est,
    get_zoom_levels "map_images" (connect partly_dangling_archive)
      = (Ok zs, connect partly_dangling_archive) /\
    estimate_zoom_sizes_bytes "map_images" (connect partly_dangling_archive)
      = (Ok est, connect partly_dangling_archive) /\
    forall z, z ∈ zs ->
      ("map_images"%string = "tiles"%string ->
         est !! z
         = Some (tiles_level_bytes (database_of (connect partly_dangling_archive)) z)) /\
      ("map_images"%string <> "tiles"%string ->
       joined_at_level (database_of (connect partly_dangling_archive)) z <> [] ->
         est !! z
         = Some (map_images_level_bytes
                   (database_of (connect partly_dangling_archive)) z)) /\
      ("map_images"%string <> "tiles"%string ->
       joined_at_level (database_of (connect partly_dangling_archive)) z = [] ->
         est !! z = None).
Proof.
  assert (H : has_schema_tables "map_images"
                (database_of (connect partly_dangling_archive))).
  { split; eexists; reflexivity. }
  split; [exact H|]. split; [vm_compute; discriminate|].
  split; [vm_compute; reflexivity|].
  apply (estimate_zoom_sizes_bytes_entries "map_images"
           (connect partly_dangling_archive) H).
Defined.

(** C5, counterexample: an archive that schema detection classifies as
    "map_images", with one coordinate row at zoom level 5 whose tile_id has
    no row in [images].  Zoom enumeration returns [5]; the inner join of the
    estimator has no row, so the mapping it returns is empty and has no
    entry for level 5. *)
Lemma estimate_zoom_sizes_bytes_misses_level :
  get_mbtiles_schema_type (connect dangling_archive)
    = (Ok "map_images"%string, connect dangling_archive) /\
  get_zoom_levels "map_images" (connect dangling_archive)
    = (Ok [5], connect dangling_archive) /\
  estimate_zoom_sizes_bytes "map_images" (connect dangling_archive)
    = (Ok ∅, connect dangling_archive) /\
  ~ (forall zs est,
       get_zoom_levels "map_images" (connect dangling_archive)
         = (Ok zs, connect dangling_archive) ->
       estimate_zoom_sizes_bytes "map_images" (connect dangling_archive)
         = (Ok est, connect dangling_archive) ->
       forall z, z ∈ zs -> is_Some (est !! z)).
Proof.
  split; [vm_compute; reflexivity|].
  split; [vm_compute; reflexivity|].
  split; [vm_compute; reflexivity|].
  intros H.
  destruct (H [5] ∅ ltac:(vm_compute; reflexivity) ltac:(vm_compute; reflexivity) 5)
    as [v Hv]; [left|].
  by rewrite lookup_empty in Hv.
Qed.

(** C10, counterexample: with an infinite overhead factor (a float that is
    at least 1) the contribution of a level without an estimate is
    [int(0 * inf)], the integer of a NaN: [ValueError], not 0. *)
Lemma group_zooms_by_limit_absent_level_raises :
  SFleb (float_of_dyadic 1 0) (S754_infinity false) = true /\
  (∅ : gmap Z Z) !! 7 = None /\
  adjusted_estimate ∅ (S754_infinity false) 7 = Raise ValueError /\
  group_zooms_by_limit [7] ∅ 10 (S754_infinity false) = Raise ValueError.
Proof. repeat split; vm_compute; reflexivity. Qed.

Lemma group_zooms_by_limit_absent_levels_witness :
  is_finite overhead_1_25 = true /\
  (forall z b, z ∈ [0; 1; 2; 3; 4] -> scenario_bytes !! z = Some b ->
     is_ok (adjusted_estimate scenario_bytes overhead_1_25 z)) /\
  (forall z, scenario_bytes !! z = None ->
     adjusted_estimate scenario_bytes overhead_1_25 z = Ok 0) /\
  is_ok (group_zooms_by_limit [0; 1; 2; 3; 4] scenario_bytes 10000000 overhead_1_25).
Proof.
  assert (H : forall z b, z ∈ [0; 1; 2; 3; 4] -> scenario_bytes !! z = Some b ->
                is_ok (adjusted_estimate scenario_bytes overhead_1_25 z)).
  { intros z b Hz _.
    repeat (apply elem_of_cons in Hz as [->|Hz];
            [eexists; vm_compute; reflexivity|]).
    by apply elem_of_nil in Hz. }
  split; [reflexivity|]. split; [exact H|].
  apply (group_zooms_by_limit_absent_levels [0; 1; 2; 3; 4] scenario_bytes
           10000000 overhead_1_25 eq_refl H).
Defined.

(** ** The writers *)

Section HoareRules.

Context {S : Type}.

Lemma hoare_bind {A B} (P : S -> Prop) (Q : A -> S -> Prop) (R : B -> S -> Prop)
    (m : action S A) (k : A -> action S B) :
  hoare P m Q -> (forall a, hoare (Q a) (k a) R) -> hoare P (m ≫= k) R.
Proof.
  intros Hm Hk s Hs. specialize (Hm s Hs).
  unfold mbind, action_bind. destruct (m s) as [[a|e] s']; [|done].
  by apply Hk.
Qed.

Lemma hoare_consequence {A} (P P' : S -> Prop) (Q Q' : A -> S -> Prop)
    (m : action S A) :
  hoare P' m Q' -> (forall s, P s -> P' s) -> (forall a s, Q' a s -> Q a s) ->
  hoare P m Q.
Proof.
  intros Hm HP HQ s Hs. specialize (Hm s (HP s Hs)).
  destruct (m s) as [[a|e] s']; [by apply HQ|done].
Qed.

Lemma hoare_ret {A} (P : S -> Prop) (a : A) :
  hoare P (mret a) (fun _ s => P s).
Proof. intros s Hs. exact Hs. Qed.

Lemma hoare_lift {A} (P : S -> Prop) (r : result A) :
  hoare P (lift r) (fun _ s => P s).
Proof. intros s Hs. unfold lift. by destruct r. Qed.

Lemma hoare_false {A} (m : action S A) (Q : A -> S -> Prop) :
  hoare (fun _ => False) m Q.
Proof. intros s []. Qed.

Lemma hoare_for_each {A} (P : S -> Prop) (body : unit -> A -> action S unit)
    (xs : list A) :
  (forall x, hoare P (body tt x) (fun _ s => P s)) ->
  hoare P (for_each body xs tt) (fun _ s => P s).
Proof.
  intros Hbody. induction xs as [|x xs IH]; simpl.
  - apply hoare_ret.
  - eapply hoare_bind; [apply Hbody|]. intros []. apply IH.
Qed.

End HoareRules.

(** Statements on the source connection leave the destination alone. *)
Lemma hoare_on_src {A} (P : connection -> Prop) (m : action connection A) :
  hoare (fun p => P (dst p)) (on_src m) (fun _ p => P (dst p)).
Proof. intros p Hp. unfold on_src. by destruct (m (src p)) as [[a|e] c]. Qed.

(** An INSERT or DELETE that returns leaves a transaction open, whether or
    not one was open before. *)
Lemma hoare_execute_dml (P : process -> Prop) stmt :
  hoare P (on_dst (execute_dml stmt)) (fun _ p => dst_in_transaction p).
Proof.
  intros p _. unfold on_dst, execute_dml.
  by destruct (stmt (database_of (dst p))) as [db'|[]].
Qed.

(** Any other statement keeps an open transaction open. *)
Lemma hoare_execute stmt :
  hoare dst_in_transaction (on_dst (execute stmt)) (fun _ p => dst_in_transaction p).
Proof.
  intros p Hp. unfold on_dst, execute.
  by destruct (stmt (database_of (dst p))).
Qed.

(** BEGIN with a transaction open never returns. *)
Lemma hoare_execute_begin (Q : unit -> process -> Prop) :
  hoare dst_in_transaction (on_dst execute_begin) Q.
Proof.
  intros p Hp. unfold on_dst, execute_begin.
  unfold dst_in_transaction in Hp. by rewrite Hp.
Qed.

Tactic Notation "hoare_step" uconstr(lem) :=
  eapply hoare_bind; [eapply lem|]; intros ?; cbv beta.

Lemma hoare_copy_metadata (P : process -> Prop) :
  hoare P copy_metadata (fun _ p => dst_in_transaction p).
Proof.
  unfold copy_metadata.
  eapply hoare_bind with (Q := fun _ _ => True).
  { intros p _. unfold on_dst, execute. by destruct (create_table_metadata _). }
  intros ?. hoare_step hoare_execute_dml.
  hoare_step (hoare_on_src (fun c => in_transaction c = true)).
  match goal with b : bool |- _ => destruct b end.
  - hoare_step (hoare_on_src (fun c => in_transaction c = true)).
    apply hoare_for_each. intros row. apply hoare_execute_dml.
  - apply hoare_ret.
Qed.

Lemma hoare_upsert_metadata (P : process -> Prop) nm val :
  hoare P (on_dst (upsert_metadata nm val)) (fun _ p => dst_in_transaction p).
Proof.
  intros p _. unfold on_dst, upsert_metadata, mbind, action_bind, execute_dml.
  destruct (delete_from_metadata_where_name nm _) as [db'|[]]; simpl; try done.
  by destruct (insert_into_metadata nm val _) as [db''|[]].
Qed.

Lemma hoare_create_schema_tiles :
  hoare dst_in_transaction (on_dst create_schema_tiles)
        (fun _ p => dst_in_transaction p).
Proof.
  intros p Hp.
  unfold on_dst, create_schema_tiles, mbind, action_bind, execute,
    execute_create_index.
  destruct (create_table_tiles _); simpl; [|done].
  by destruct (create_tile_index _) as [db'|[]].
Qed.

Lemma hoare_create_schema_map_images :
  hoare dst_in_transaction (on_dst create_schema_map_images)
        (fun _ p => dst_in_transaction p).
Proof.
  intros p Hp.
  unfold on_dst, create_schema_map_images, mbind, action_bind, execute,
    execute_create_index.
  destruct (create_table_map _); simpl; [|done].
  destruct (create_table_images _); simpl; [|done].
  by destruct (create_map_index _) as [db'|[]].
Qed.

Lemma hoare_execute_pragma (P : process -> Prop) :
  hoare P (on_dst execute_pragma) (fun _ p => True).
Proof. by intros p _. Qed.

(** The explicit BEGIN of the [tiles] writer is always reached with the
    transaction of the metadata statements still open: the writer returns
    on no input. *)
Lemma split_tiles_schema_from_never_returns getsize zooms limit_bytes :
  hoare (fun _ => True) (split_tiles_schema_from getsize zooms limit_bytes)
        (fun _ _ => False).
Proof.
  unfold split_tiles_schema_from.
  do 3 hoare_step hoare_execute_pragma.
  hoare_step hoare_copy_metadata.
  hoare_step hoare_create_schema_tiles.
  hoare_step hoare_lift.
  hoare_step hoare_lift.
  hoare_step hoare_upsert_metadata.
  hoare_step hoare_upsert_metadata.
  hoare_step hoare_execute_begin.
  apply hoare_false.
Qed.

Lemma split_map_images_schema_from_never_returns getsize zooms limit_bytes :
  hoare (fun _ => True) (split_map_images_schema_from getsize zooms limit_bytes)
        (fun _ _ => False).
Proof.
  unfold split_map_images_schema_from.
  do 3 hoare_step hoare_execute_pragma.
  hoare_step hoare_copy_metadata.
  hoare_step hoare_create_schema_map_images.
  hoare_step hoare_lift.
  hoare_step hoare_lift.
  hoare_step hoare_upsert_metadata.
  hoare_step hoare_upsert_metadata.
  hoare_step hoare_execute_begin.
  apply hoare_false.
Qed.

Lemma split_tiles_schema_never_returns getsize src_db out_db zooms limit_bytes size :
  (split_tiles_schema getsize src_db out_db zooms limit_bytes).1 <> Ok size.
Proof.
  unfold split_tiles_schema, connect_ro, connect_rw. intros H.
  pose proof (split_tiles_schema_from_never_returns getsize zooms limit_bytes
                (Process (connect src_db) (connect out_db) []) I) as Hh.
  destruct (split_tiles_schema_from _ _ _ _) as [[a|e] p']; [done|discriminate].
Qed.

Lemma split_map_images_schema_never_returns getsize src_db out_db zooms
    limit_bytes size :
  (split_map_images_schema getsize src_db out_db zooms limit_bytes).1 <> Ok size.
Proof.
  unfold split_map_images_schema, connect_ro, connect_rw. intros H.
  pose proof (split_map_images_schema_from_never_returns getsize zooms limit_bytes
                (Process (connect src_db) (connect out_db) []) I) as Hh.
  destruct (split_map_images_schema_from _ _ _ _) as [[a|e] p']; [done|discriminate].
Qed.

(** *** What the writers do before they fail *)

Lemma set_metadata_set_metadata v v' db :
  set_metadata v (set_metadata v' db) = set_metadata v db.
Proof. reflexivity. Qed.

Lemma for_each_insert_into_metadata rows :
  forall src_c db acc out,
    metadata db = Some acc ->
    for_each
      (fun _ row => on_dst (execute_dml (insert_into_metadata (name row) (value row))))
      rows tt (Process src_c (Connection db true) out)
    = (Ok tt,
       Process src_c (Connection (set_metadata (Some (acc ++ rows)) db) true) out).
Proof.
  induction rows as [|[nm val] rows IH]; intros src_c db acc out Hacc.
  - simpl. rewrite app_nil_r, <- Hacc. by destruct db.
  - simpl. unfold mbind at 1, action_bind at 1.
    unfold on_dst at 1, execute_dml, insert_into_metadata. simpl.
    rewrite Hacc. simpl.
    rewrite (IH _ _ (acc ++ [MetadataRow nm val])) by reflexivity.
    by rewrite set_metadata_set_metadata, <- app_assoc.
Qed.

(** [copy_metadata] replaces whatever metadata the destination had by the
    rows of the source, and leaves a transaction open. *)
Lemma copy_metadata_run src_c dst_c out :
  copy_metadata (Process src_c dst_c out) =
  (Ok tt,
   Process src_c
     (Connection
        (set_metadata (Some (default [] (metadata (database_of src_c))))
                      (database_of dst_c))
        true)
     out).
Proof.
  unfold copy_metadata.
  assert (Hc : exists db old,
             create_table_metadata (database_of dst_c) = Ok db /\
             metadata db = Some old /\
             forall v, set_metadata v db = set_metadata v (database_of dst_c)).
  { unfold create_table_metadata.
    destruct (metadata (database_of dst_c)) as [old|] eqn:Hm; eauto. }
  destruct Hc as (db & old & Hcreate & Hold & Hset).
  unfold mbind at 1, action_bind at 1. unfold on_dst at 1, execute at 1.
  cbn [dst src stdout database_of in_transaction]. rewrite Hcreate.
  unfold mbind at 1, action_bind at 1.
  unfold on_dst at 1, execute_dml at 1, delete_from_metadata.
  cbn [dst src stdout database_of in_transaction]. rewrite Hold.
  cbn [mbind mret result_bind result_ret from_table].
  unfold mbind at 1, action_bind at 1. unfold on_src at 1.
  cbn [dst src stdout]. rewrite table_exists_metadata.
  destruct (metadata (database_of src_c)) as [rows|] eqn:Hrows;
    cbn [present default].
  - unfold mbind at 1, action_bind at 1.
    unfold on_src at 1, execute_select, select_metadata.
    cbn [dst src stdout]. rewrite Hrows. cbn [from_table].
    rewrite (for_each_insert_into_metadata rows _ _ []) by reflexivity.
    by rewrite set_metadata_set_metadata, Hset.
  - by rewrite Hset.
Qed.

Lemma upsert_metadata_run nm val db tx rows :
  metadata db = Some rows ->
  upsert_metadata nm val (Connection db tx) =
  (Ok tt,
   Connection
     (set_metadata (Some (filter (fun r => name r <> nm) rows ++ [MetadataRow nm val])) db)
     true).
Proof.
  intros Hrows. unfold upsert_metadata, mbind, action_bind, execute_dml.
  unfold delete_from_metadata_where_name, insert_into_metadata. simpl.
  rewrite Hrows. simpl. reflexivity.
Qed.

Lemma output_metadata_eq src_db zmin zmax :
  filter (fun r => name r <> "maxzoom"%string)
    (filter (fun r => name r <> "minzoom"%string) (default [] (metadata src_db))
     ++ [MetadataRow "minzoom" (str zmin)])
  ++ [MetadataRow "maxzoom" (str zmax)]
  = output_metadata src_db zmin zmax.
Proof.
  unfold output_metadata. rewrite filter_app, <- app_assoc. reflexivity.
Qed.

Lemma create_schema_tiles_fresh md tx :
  create_schema_tiles (Connection (Database None false None false None false md) tx)
  = (Ok tt, Connection (Database (Some []) true None false None false md) tx).
Proof. reflexivity. Qed.

Lemma create_schema_map_images_fresh md tx :
  create_schema_map_images
    (Connection (Database None false None false None false md) tx)
  = (Ok tt, Connection (Database None false (Some []) true (Some []) true md) tx).
Proof. reflexivity. Qed.

Ltac run_bind :=
  unfold mbind at 1, action_bind at 1;
  cbn [dst src stdout database_of in_transaction].

Ltac run_on_dst :=
  run_bind; unfold on_dst at 1;
  cbn [dst src stdout database_of in_transaction].

(** On a fresh output path, for every source and every non-empty group, the
    [tiles] writer creates an empty [tiles] table, brings the metadata of
    its connection to the intended rows, and then fails at its BEGIN with
    everything since [DELETE FROM metadata] still uncommitted. *)
Lemma split_tiles_schema_fresh getsize src_db zooms limit_bytes zmin zmax :
  min zooms = Ok zmin -> max zooms = Ok zmax ->
  split_tiles_schema getsize src_db empty_database zooms limit_bytes =
  (Raise OperationalError,
   Process (connect src_db)
     (Connection
        (Database (Some []) true None false None false
                  (Some (output_metadata src_db zmin zmax)))
        true)
     []).
Proof.
  intros Hmin Hmax.
  unfold split_tiles_schema, split_tiles_schema_from, connect_ro, connect_rw.
  do 3 (run_on_dst; unfold execute_pragma at 1).
  run_bind. rewrite copy_metadata_run.
  unfold connect at 2 3, empty_database, set_metadata.
  cbn [dst src stdout database_of in_transaction tiles tile_index map_table
       map_index images images_pk metadata].
  run_on_dst. rewrite create_schema_tiles_fresh.
  rewrite Hmin, Hmax. unfold lift. do 2 run_bind.
  run_on_dst. erewrite upsert_metadata_run by reflexivity.
  run_on_dst. erewrite upsert_metadata_run by reflexivity.
  unfold set_metadata.
  cbn [dst src stdout database_of in_transaction tiles tile_index map_table
       map_index images images_pk metadata].
  rewrite output_metadata_eq. reflexivity.
Qed.

(** The same for the [map]/[images] writer. *)
Lemma split_map_images_schema_fresh getsize src_db zooms limit_bytes zmin zmax :
  min zooms = Ok zmin -> max zooms = Ok zmax ->
  split_map_images_schema getsize src_db empty_database zooms limit_bytes =
  (Raise OperationalError,
   Process (connect src_db)
     (Connection
        (Database None false (Some []) true (Some []) true
                  (Some (output_metadata src_db zmin zmax)))
        true)
     []).
Proof.
  intros Hmin Hmax.
  unfold split_map_images_schema, split_map_images_schema_from, connect_ro, connect_rw.
  do 3 (run_on_dst; unfold execute_pragma at 1).
  run_bind. rewrite copy_metadata_run.
  unfold connect at 2 3, empty_database, set_metadata.
  cbn [dst src stdout database_of in_transaction tiles tile_index map_table
       map_index images images_pk metadata].
  run_on_dst. rewrite create_schema_map_images_fresh.
  rewrite Hmin, Hmax. unfold lift. do 2 run_bind.
  run_on_dst. erewrite upsert_metadata_run by reflexivity.
  run_on_dst. erewrite upsert_metadata_run by reflexivity.
  unfold set_metadata.
  cbn [dst src stdout database_of in_transaction tiles tile_index map_table
       map_index images images_pk metadata].
  rewrite output_metadata_eq. reflexivity.
Qed.

(** The copy statements run on the destination connection alone: the rows
    their SELECT reads are rows of the destination.  On the tables that the
    writer has just created they find nothing to insert. *)
Lemma insert_into_tiles_select_empty zooms db :
  tiles db = Some [] ->
  insert_into_tiles_select zooms db = Ok (set_tiles (Some []) db).
Proof. intros H. unfold insert_into_tiles_select. rewrite H. reflexivity. Qed.

Lemma insert_into_map_select_empty zooms db :
  map_table db = Some [] ->
  insert_into_map_select zooms db = Ok (set_map_table (Some []) db).
Proof. intros H. unfold insert_into_map_select. rewrite H. reflexivity. Qed.

Lemma insert_or_ignore_into_images_select_empty db ms :
  map_table db = Some ms -> images db = Some [] ->
  insert_or_ignore_into_images_select db
  = Ok (set_images (Some []) (images_pk db) db).
Proof.
  intros Hm Hi. unfold insert_or_ignore_into_images_select.
  rewrite Hm, Hi. reflexivity.
Qed.

(** C1 (tiles copied verbatim), evaluated on a source with one tile at zoom
    level 0, a fresh output path and the group [0]: the writer raises
    [OperationalError] at its BEGIN and the [tiles] table of the output is
    empty although the source has a row in the group; the copy statement
    itself, run on the tables the writer has created, inserts nothing. *)
Theorem split_tiles_schema_copies_nothing (getsize : database -> Z) :
  (exists r, r ∈ default [] (tiles one_tile_archive) /\ zoom_level r ∈ [0]) /\
  (exists p,
     split_tiles_schema getsize one_tile_archive empty_database [0] 100
       = (Raise OperationalError, p) /\
     tiles (database_of (dst p)) = Some []) /\
  insert_into_tiles_select [0]
    (Database (Some []) true None false None false (Some []))
  = Ok (Database (Some []) true None false None false (Some [])).
Proof.
  split; [|split].
  - eexists. split; [left|left].
  - eexists. split.
    + by apply (split_tiles_schema_fresh getsize one_tile_archive [0] 100 0 0).
    + reflexivity.
  - vm_compute. reflexivity.
Qed.

(** C2 (coordinate rows and referenced images copied), evaluated on a source
    with one coordinate row at zoom level 5 and its image, a fresh output
    path and the group [5]: the writer raises [OperationalError] at its
    first BEGIN and both [map] and [images] of the output are empty; the two
    copy statements, run on the tables the writer has created, insert
    nothing. *)
Theorem split_map_images_schema_copies_nothing (getsize : database -> Z) :
  (exists r, r ∈ default [] (map_table one_image_archive) /\ map_zoom_level r ∈ [5]) /\
  (exists p,
     split_map_images_schema getsize one_image_archive empty_database [5] 100
       = (Raise OperationalError, p) /\
     map_table (database_of (dst p)) = Some [] /\
     images (database_of (dst p)) = Some []) /\
  insert_into_map_select [5]
    (Database None false (Some []) true (Some []) true (Some []))
  = Ok (Database None false (Some []) true (Some []) true (Some [])) /\
  insert_or_ignore_into_images_select
    (Database None false (Some []) true (Some []) true (Some []))
  = Ok (Database None false (Some []) true (Some []) true (Some [])).
Proof.
  split; [|split; [|split]].
  - eexists. split; [left|left].
  - eexists. split; [|split].
    + by apply (split_map_images_schema_fresh getsize one_image_archive [5] 100 5 5).
    + reflexivity.
    + reflexivity.
  - vm_compute. reflexivity.
  - vm_compute. reflexivity.
Qed.

(** C8 (metadata of the output), evaluated on the same two inputs: when the
    writers raise, the metadata rows of the destination connection are the
    source rows with minzoom and maxzoom replaced, but the transaction that
    holds them is still open: nothing after [CREATE TABLE metadata] has been
    committed to the output archive. *)
Theorem split_schema_metadata_uncommitted (getsize : database -> Z) :
  (exists p,
     split_tiles_schema getsize one_tile_archive empty_database [0] 100
       = (Raise OperationalError, p) /\
     metadata (database_of (dst p))
       = Some [MetadataRow "format" "png"; MetadataRow "minzoom" "0";
               MetadataRow "maxzoom" "0"] /\
     in_transaction (dst p) = true) /\
  (exists p,
     split_map_images_schema getsize one_image_archive empty_database [5] 100
       = (Raise OperationalError, p) /\
     metadata (database_of (dst p))
       = Some [MetadataRow "format" "png"; MetadataRow "minzoom" "5";
               MetadataRow "maxzoom" "5"] /\
     in_transaction (dst p) = true).
Proof.
  split.
  - eexists. split; [|split].
    + by apply (split_tiles_schema_fresh getsize one_tile_archive [0] 100 0 0).
    + vm_compute. reflexivity.
    + reflexivity.
  - eexists. split; [|split].
    + by apply (split_map_images_schema_fresh getsize one_image_archive [5] 100 5 5).
    + vm_compute. reflexivity.
    + reflexivity.
Qed.


(** * Further properties of the code *)

(** ** Zoom enumeration and the size estimate *)

Lemma execute_select_unchanged {A} (q : database -> result A) c r c' :
  execute_select q c = (r, c') -> c' = c.
Proof. unfold execute_select. by intros [= _ <-]. Qed.

Lemma get_zoom_levels_eq schema c zs c' :
  get_zoom_levels schema c = (Ok zs, c') ->
  c' = c /\ zs = distinct_ordered (schema_zoom_values schema (database_of c)).
Proof.
  unfold get_zoom_levels, schema_zoom_values, execute_select,
    select_zoom_levels_tiles, select_zoom_levels_map.
  destruct (bool_decide (schema = "tiles"%string)).
  - destruct (tiles (database_of c)) as [rows|]; simpl; [|discriminate].
    by intros [= <- <-].
  - destruct (map_table (database_of c)) as [rows|]; simpl; [|discriminate].
    by intros [= <- <-].
Qed.

(** X1 (zoom enumeration): whatever [get_zoom_levels] returns is in strictly
    ascending order (so free of duplicates) and holds exactly the zoom levels
    that occur in the table it reads ([tiles] for the schema "tiles", [map]
    otherwise); the connection is left as it was. *)
Theorem get_zoom_levels_ascending_exact
    (schema : string) (c c' : connection) (zs : list Z) :
  get_zoom_levels schema c = (Ok zs, c') ->
  c' = c /\
  StronglySorted Z.lt zs /\
  forall z, z ∈ zs <-> z ∈ schema_zoom_values schema (database_of c).
Proof.
  intros H. apply get_zoom_levels_eq in H as [-> ->].
  split; [done|]. split.
  - assert (Hs : StronglySorted Z.le
                  (distinct_ordered (schema_zoom_values schema (database_of c))))
      by apply (StronglySorted_merge_sort Z.le).
    pose proof (distinct_ordered_NoDup
                  (schema_zoom_values schema (database_of c))) as Hnd.
    induction Hs as [|x l Hl IH Hx]; [constructor|].
    apply NoDup_cons in Hnd as [Hnotin Hnd].
    constructor; [by apply IH|].
    apply Forall_forall. intros y Hy.
    pose proof (proj1 (Forall_forall _ _) Hx y Hy).
    assert (x <> y) by (intros ->; done). lia.
  - intros z. apply distinct_ordered_elem.
Qed.

Lemma get_zoom_levels_ascending_exact_witness :
  get_zoom_levels "tiles" (connect unsorted_tiles_archive)
    = (Ok [0; 1; 3], connect unsorted_tiles_archive) /\
  (connect unsorted_tiles_archive = connect unsorted_tiles_archive /\
   StronglySorted Z.lt [0; 1; 3] /\
   forall z, z ∈ [0; 1; 3] <->
     z ∈ schema_zoom_values "tiles" (database_of (connect unsorted_tiles_archive))).
Proof.
  split; [vm_compute; reflexivity|].
  apply (get_zoom_levels_ascending_exact "tiles" (connect unsorted_tiles_archive)).
  vm_compute; reflexivity.
Defined.

Lemma sum_Z_nonneg xs : Forall (fun x => 0 <= x) xs -> 0 <= sum_Z xs.
Proof.
  induction 1 as [|x xs Hx _ IH]; unfold sum_Z in *; simpl; lia.
Qed.

Lemma sum_Z_app xs ys : sum_Z (xs ++ ys) = sum_Z xs + sum_Z ys.
Proof.
  induction xs as [|x xs IH]; unfold sum_Z in *; simpl; lia.
Qed.

Lemma payload_nonneg x : 0 <= payload x.
Proof. destruct x; unfold payload; simpl; lia. Qed.

Lemma estimate_zoom_sizes_bytes_eq schema c est c' :
  estimate_zoom_sizes_bytes schema c = (Ok est, c') ->
  c' = c /\
  exists rows : list (Z * option Z),
    est = zoom_bytes_of_rows (group_by_sum rows) /\
    (forall z, z ∈ rows.*1 -> z ∈ schema_zoom_values schema (database_of c)) /\
    (schema = "tiles"%string ->
     rows.*1 = schema_zoom_values schema (database_of c)).
Proof.
  unfold estimate_zoom_sizes_bytes, schema_zoom_values, mbind, action_bind,
    execute_select, select_zoom_bytes_tiles, select_zoom_bytes_map_images.
  destruct (bool_decide_reflect (schema = "tiles"%string)) as [Hs|Hs].
  - destruct (tiles (database_of c)) as [rows|]; simpl; [|discriminate].
    intros [= <- <-]. split; [done|]. eexists. split; [reflexivity|].
    rewrite <- list_fmap_compose. split; [done|done].
  - destruct (map_table (database_of c)) as [ms|]; simpl; [|discriminate].
    destruct (images (database_of c)) as [imgs|]; simpl; [|discriminate].
    intros [= <- <-]. split; [done|]. eexists. split; [reflexivity|].
    split; [|done]. intros z. rewrite <- list_fmap_compose.
    intros Hz. apply list_elem_of_fmap in Hz as ([m i] & -> & Hmi). simpl.
    unfold join_map_images in Hmi.
    apply list_elem_of_bind in Hmi as (m' & Hmi & Hm').
    apply list_elem_of_fmap in Hmi as (i' & [= -> ->] & _).
    by apply list_elem_of_fmap_2.
Qed.

(** X2 (keys of the estimate): the mapping that the estimator returns has
    keys only among the zoom levels that zoom enumeration lists for the same
    schema and connection; for the schema "tiles" its keys are exactly
    those levels. *)
Theorem estimate_zoom_sizes_bytes_keys
    (schema : string) (c c1 c2 : connection) (zs : list Z) (est : gmap Z Z) :
  get_zoom_levels schema c = (Ok zs, c1) ->
  estimate_zoom_sizes_bytes schema c = (Ok est, c2) ->
  (forall z, is_Some (est !! z) -> z ∈ zs) /\
  (schema = "tiles"%string -> forall z, z ∈ zs -> is_Some (est !! z)).
Proof.
  intros Hz He. apply get_zoom_levels_eq in Hz as [_ ->].
  apply estimate_zoom_sizes_bytes_eq in He as (_ & rows & -> & Hsub & Heq).
  split.
  - intros z [v Hv]. rewrite zoom_bytes_of_group_by_sum in Hv.
    destruct (decide (z ∈ rows.*1)); [|discriminate].
    apply distinct_ordered_elem. by apply Hsub.
  - intros Hs z Hzs. rewrite distinct_ordered_elem in Hzs.
    rewrite zoom_bytes_of_group_by_sum, decide_True; [by eexists|].
    by rewrite Heq.
Qed.

Lemma estimate_zoom_sizes_bytes_keys_witness :
  get_zoom_levels "tiles" (connect unsorted_tiles_archive)
    = (Ok [0; 1; 3], connect unsorted_tiles_archive) /\
  estimate_zoom_sizes_bytes "tiles" (connect unsorted_tiles_archive)
    = (Ok (list_to_map [(0, 0); (1, 2); (3, 1)]), connect unsorted_tiles_archive) /\
  ((forall z, is_Some ((list_to_map [(0, 0); (1, 2); (3, 1)] : gmap Z Z) !! z) ->
              z ∈ [0; 1; 3]) /\
   ("tiles"%string = "tiles"%string ->
    forall z, z ∈ [0; 1; 3] ->
              is_Some ((list_to_map [(0, 0); (1, 2); (3, 1)] : gmap Z Z) !! z))).
Proof.
  assert (H1 : get_zoom_levels "tiles" (connect unsorted_tiles_archive)
               = (Ok [0; 1; 3], connect unsorted_tiles_archive))
    by (vm_compute; reflexivity).
  assert (H2 : estimate_zoom_sizes_bytes "tiles" (connect unsorted_tiles_archive)
               = (Ok (list_to_map [(0, 0); (1, 2); (3, 1)]),
                  connect unsorted_tiles_archive))
    by (vm_compute; reflexivity).
  split; [exact H1|]. split; [exact H2|].
  exact (estimate_zoom_sizes_bytes_keys _ _ _ _ _ _ H1 H2).
Defined.

(** X3 (estimates are non-negative): every value of the mapping that the
    estimator returns is a sum of blob lengths, hence at least 0. *)
Theorem estimate_zoom_sizes_bytes_nonnegative
    (schema : string) (c c' : connection) (est : gmap Z Z) (z v : Z) :
  estimate_zoom_sizes_bytes schema c = (Ok est, c') ->
  est !! z = Some v -> 0 <= v.
Proof.
  intros He Hv.
  assert (Hrows : exists rows : list (Z * option blob),
            est = zoom_bytes_of_rows
                    (group_by_sum ((fun r => (r.1, sql_length r.2)) <$> rows))).
  { revert He.
    unfold estimate_zoom_sizes_bytes, mbind, action_bind, execute_select,
      select_zoom_bytes_tiles, select_zoom_bytes_map_images.
    destruct (bool_decide (schema = "tiles"%string)).
    - destruct (tiles (database_of c)) as [rows|]; simpl; [|discriminate].
      intros [= <- _].
      exists ((fun r => (zoom_level r, tile_data r)) <$> rows).
      by rewrite <- list_fmap_compose.
    - destruct (map_table (database_of c)) as [ms|]; simpl; [|discriminate].
      destruct (images (database_of c)) as [imgs|]; simpl; [|discriminate].
      intros [= <- _].
      exists ((fun mi => (map_zoom_level mi.1, images_tile_data mi.2))
                <$> join_map_images ms imgs).
      by rewrite <- list_fmap_compose. }
  destruct Hrows as (rows & ->).
  rewrite zoom_bytes_of_group_by_sum in Hv.
  destruct (decide _); [|discriminate]. inversion Hv; subst v.
  apply sum_Z_nonneg, Forall_forall. intros x Hx.
  apply list_elem_of_fmap in Hx as (o & -> & Ho).
  apply list_elem_of_fmap in Ho as ([k o'] & -> & Hko).
  apply list_elem_of_filter in Hko as [_ Hko].
  apply list_elem_of_fmap in Hko as ([k' b] & [= _ ->] & _).
  apply payload_nonneg.
Qed.

Lemma estimate_zoom_sizes_bytes_nonnegative_witness :
  estimate_zoom_sizes_bytes "tiles" (connect one_tile_archive)
    = (Ok {[ 0 := 2 ]}, connect one_tile_archive) /\
  ({[ 0 := 2 ]} : gmap Z Z) !! 0 = Some 2 /\ 0 <= 2.
Proof.
  assert (H1 : estimate_zoom_sizes_bytes "tiles" (connect one_tile_archive)
               = (Ok {[ 0 := 2 ]}, connect one_tile_archive))
    by (vm_compute; reflexivity).
  split; [exact H1|]. split; [reflexivity|].
  exact (estimate_zoom_sizes_bytes_nonnegative _ _ _ _ 0 2 H1 eq_refl).
Defined.

Lemma join_map_images_level_bytes ms imgs z :
  sum_Z ((fun mi : map_row * images_row => payload (images_tile_data mi.2))
           <$> filter (fun mi => map_zoom_level mi.1 = z) (join_map_images ms imgs))
  = sum_Z (image_bytes_of imgs <$> filter (fun m => map_zoom_level m = z) ms).
Proof.
  induction ms as [|m ms IH]; [reflexivity|].
  change (join_map_images (m :: ms) imgs)
    with (((fun i => (m, i)) <$> filter (fun i => images_tile_id i = map_tile_id m) imgs)
          ++ join_map_images ms imgs).
  rewrite filter_app, fmap_app, sum_Z_app, IH.
  rewrite (filter_fmap_comm (fun i => (m, i))
             (fun mi : map_row * images_row => map_zoom_level mi.1 = z)).
  simpl. rewrite filter_cons.
  destruct (decide (map_zoom_level m = z)) as [Hz|Hz].
  - rewrite fmap_cons.
    change (sum_Z (image_bytes_of imgs m :: ?l)) with (image_bytes_of imgs m + sum_Z l).
    f_equal. unfold image_bytes_of. f_equal.
    rewrite <- list_fmap_compose.
    f_equal. induction (filter _ imgs) as [|i l IHl]; [done|].
    rewrite filter_cons. destruct (decide _); [|done]. simpl. by f_equal.
  - replace (filter (fun x : images_row => map_zoom_level m = z)
               (filter (fun i => images_tile_id i = map_tile_id m) imgs))
      with (@nil images_row).
    + reflexivity.
    + symmetry. apply filter_nil_iff_not_elem. by intros.
Qed.

(** X4 (shared images are counted per coordinate row): for the [map]/[images]
    schema, the estimate of a zoom level is the sum, over the coordinate rows
    of that level, of the blob lengths of the image rows with the row's
    tile_id: an image that several coordinate rows share is counted once for
    each of them. *)
Theorem estimate_counts_every_coordinate_row
    (schema : string) (c c' : connection) (est : gmap Z Z)
    (ms : list map_row) (imgs : list images_row) (z v : Z) :
  schema <> "tiles"%string ->
  map_table (database_of c) = Some ms ->
  images (database_of c) = Some imgs ->
  estimate_zoom_sizes_bytes schema c = (Ok est, c') ->
  est !! z = Some v ->
  v = sum_Z (image_bytes_of imgs <$> filter (fun m => map_zoom_level m = z) ms).
Proof.
  intros Hs Hm Hi He Hv.
  rewrite (estimate_zoom_sizes_bytes_map_images schema c ms imgs Hs Hm Hi) in He.
  inversion He; subst est c'. rewrite map_images_entry in Hv.
  rewrite <- join_map_images_level_bytes.
  destruct (filter _ (join_map_images ms imgs)); [discriminate|].
  by inversion Hv.
Qed.

Lemma estimate_counts_every_coordinate_row_witness :
  let shared :=
    Database None false
      (Some [MapRow 3 0 0 "sea"; MapRow 3 0 1 "sea"; MapRow 4 0 0 "sea"]) true
      (Some [ImagesRow "sea" (Some [Byte.x89; Byte.x50; Byte.x4e])]) true None in
  estimate_zoom_sizes_bytes "map_images" (connect shared)
    = (Ok {[ 3 := 6; 4 := 3 ]}, connect shared) /\
  6 = sum_Z (image_bytes_of [ImagesRow "sea" (Some [Byte.x89; Byte.x50; Byte.x4e])]
               <$> filter (fun m => map_zoom_level m = 3)
                     [MapRow 3 0 0 "sea"; MapRow 3 0 1 "sea"; MapRow 4 0 0 "sea"]).
Proof.
  intros shared.
  assert (H : estimate_zoom_sizes_bytes "map_images" (connect shared)
              = (Ok {[ 3 := 6; 4 := 3 ]}, connect shared))
    by (vm_compute; reflexivity).
  split; [exact H|].
  apply (estimate_counts_every_coordinate_row "map_images" (connect shared)
           (connect shared) {[ 3 := 6; 4 := 3 ]} _ _ 3 6);
    [discriminate|reflexivity|reflexivity|exact H|reflexivity].
Defined.

(** ** More on the grouper *)

Section GrouperMore.

Variable zoom_bytes : gmap Z Z.
Variable limit_bytes : Z.
Variable overhead_factor : float.

Abbreviation est' := (adjusted_estimate zoom_bytes overhead_factor).
Abbreviation total' := (group_estimate zoom_bytes overhead_factor).
Abbreviation step' := (group_step zoom_bytes limit_bytes overhead_factor).
Abbreviation w := (weight zoom_bytes overhead_factor).

Lemma group_step_raise st z e : step' st z = Raise e <-> est' z = Raise e.
Proof.
  unfold group_step. destruct (est' z) as [v|e']; simpl.
  - destruct (current st); [|destruct (_ <=? _)]; split; intros; discriminate.
  - split; intros [= ->]; reflexivity.
Qed.

Lemma for_each_group_step_raise zs :
  forall st e,
    for_each step' zs st = Raise e ->
    exists before z after,
      zs = before ++ z :: after /\
      Forall (fun y => is_ok (est' y)) before /\ est' z = Raise e.
Proof.
  induction zs as [|z zs IH]; intros st e H; [discriminate|].
  simpl in H. destruct (step' st z) as [st1|e1] eqn:H1; simpl in H.
  - destruct (IH _ _ H) as (before & y & after & -> & Hb & Hy).
    exists (z :: before), y, after. repeat split; [|done].
    constructor; [|done]. by eapply group_step_ok.
  - inversion H; subst e1. exists [], z, zs. repeat split; [constructor|].
    by apply group_step_raise in H1.
Qed.

Lemma group_estimate_weight g s : total' g = Ok s -> s = sum_Z (w <$> g).
Proof.
  revert s. induction g as [|z g IH]; intros s H; simpl in H.
  - by inversion H.
  - rewrite fmap_cons. change (s = w z + sum_Z (w <$> g)).
    destruct (est' z) as [e|] eqn:Hz; simpl in H; [|discriminate].
    destruct (total' g) as [sg|]; simpl in H; [|discriminate].
    inversion H; subst s.
    assert (Hw : w z = e) by (unfold weight; by rewrite Hz).
    by rewrite Hw, (IH sg eq_refl).
Qed.

Lemma group_estimate_defined g :
  Forall (fun z => is_ok (est' z)) g -> total' g = Ok (sum_Z (w <$> g)).
Proof.
  induction 1 as [|z g [e Hz] _ IH]; [reflexivity|].
  assert (Hw : w z = e) by (unfold weight; by rewrite Hz).
  rewrite fmap_cons. change (sum_Z (w z :: ?l)) with (w z + sum_Z l).
  simpl. rewrite Hz, IH, Hw. reflexivity.
Qed.

Lemma weight_nonneg zooms z :
  nonnegative_estimates zoom_bytes overhead_factor zooms -> z ∈ zooms -> 0 <= w z.
Proof.
  intros Hnn Hz. unfold weight. destruct (est' z) as [e|] eqn:He; [|lia].
  by apply (Hnn z e).
Qed.

Lemma sum_weight_nonneg zooms g :
  nonnegative_estimates zoom_bytes overhead_factor zooms -> g ⊆ zooms ->
  0 <= sum_Z (w <$> g).
Proof.
  intros Hnn Hsub. apply sum_Z_nonneg, Forall_forall. intros x Hx.
  apply list_elem_of_fmap in Hx as (z & -> & Hz).
  eapply weight_nonneg; eauto.
Qed.

Lemma weight_le_sum zooms g z :
  nonnegative_estimates zoom_bytes overhead_factor zooms -> g ⊆ zooms -> z ∈ g ->
  w z <= sum_Z (w <$> g).
Proof.
  intros Hnn Hsub Hz. apply list_elem_of_split in Hz as (a & b & ->).
  rewrite fmap_app, fmap_cons, sum_Z_app.
  change (sum_Z (w z :: ?l)) with (w z + sum_Z l).
  assert (0 <= sum_Z (w <$> a)) by (eapply sum_weight_nonneg; [done|set_solver]).
  assert (0 <= sum_Z (w <$> b)) by (eapply sum_weight_nonneg; [done|set_solver]).
  lia.
Qed.

End GrouperMore.

(** X5 (when the grouper raises): [group_zooms_by_limit] returns exactly when
    the adjusted estimate of every input level is computable; when it raises,
    the exception is the one raised for the first input level whose adjusted
    estimate is not computable. *)
Theorem group_zooms_by_limit_raises_iff
    (zooms : list Z) (zoom_bytes : gmap Z Z) (limit_bytes : Z)
    (overhead_factor : float) :
  (is_ok (group_zooms_by_limit zooms zoom_bytes limit_bytes overhead_factor) <->
   Forall (fun z => is_ok (adjusted_estimate zoom_bytes overhead_factor z)) zooms) /\
  (forall e,
     group_zooms_by_limit zooms zoom_bytes limit_bytes overhead_factor = Raise e ->
     exists before z after,
       zooms = before ++ z :: after /\
       Forall (fun y => is_ok (adjusted_estimate zoom_bytes overhead_factor y)) before /\
       adjusted_estimate zoom_bytes overhead_factor z = Raise e).
Proof.
  split; [split|].
  - intros [G HG]. by eapply group_zooms_by_limit_ok.
  - apply group_zooms_by_limit_returns.
  - intros e. unfold group_zooms_by_limit.
    destruct (for_each _ zooms _) as [st|e'] eqn:Hloop; simpl.
    + by destruct (current st).
    + intros [= ->]. by eapply for_each_group_step_raise.
Qed.

(** X6 (an oversized level is on its own): when the adjusted estimates are
    non-negative, a level whose own adjusted estimate exceeds the limit is the
    only member of its group in the result. *)
Theorem group_zooms_by_limit_oversized_alone
    (zooms : list Z) (zoom_bytes : gmap Z Z) (limit_bytes : Z)
    (overhead_factor : float) (G : list (list Z)) (g : list Z) (z e : Z) :
  group_zooms_by_limit zooms zoom_bytes limit_bytes overhead_factor = Ok G ->
  nonnegative_estimates zoom_bytes overhead_factor zooms ->
  g ∈ G -> z ∈ g ->
  adjusted_estimate zoom_bytes overhead_factor z = Ok e -> limit_bytes < e ->
  g = [z].
Proof.
  intros HG Hnn Hg Hz He Hbig.
  pose proof (group_zooms_by_limit_ok _ _ _ _ _ HG) as Hok.
  destruct zooms as [|z0 zs].
  { rewrite group_zooms_by_limit_nil in HG. inversion HG; subst G.
    by apply elem_of_nil in Hg. }
  destruct (group_zooms_by_limit_packed zoom_bytes limit_bytes overhead_factor
              (z0 :: zs)) as (G' & st & HG' & Hinv); [done|done|].
  rewrite HG in HG'. inversion HG'; subst G'.
  assert (Hsub : g ⊆ z0 :: zs).
  { intros y Hy. rewrite <- (packed_concat _ _ _ _ _ _ Hinv).
    apply list_elem_of_In, in_concat. exists g.
    split; by apply list_elem_of_In. }
  destruct g as [|y [|y' g']].
  - by apply elem_of_nil in Hz.
  - apply list_elem_of_singleton in Hz. by subst.
  - exfalso.
    destruct (proj1 (Forall_forall _ _) (packed_bound _ _ _ _ _ _ Hinv) _ Hg)
      as (s & Hs & Hle); [simpl; lia|].
    apply group_estimate_weight in Hs.
    pose proof (weight_le_sum zoom_bytes overhead_factor _ _ z Hnn Hsub Hz) as Hw.
    unfold weight in Hw at 1. rewrite He in Hw. lia.
Qed.

Lemma group_zooms_by_limit_oversized_alone_witness :
  group_zooms_by_limit [0; 1; 2; 3] scenario_bytes 10000000 overhead_1_25
    = Ok [[0; 1]; [2]; [3]] /\
  nonnegative_estimates scenario_bytes overhead_1_25 [0; 1; 2; 3] /\
  adjusted_estimate scenario_bytes overhead_1_25 2 = Ok 62500000 /\
  [2] = [2].
Proof.
  assert (Hnn : nonnegative_estimates scenario_bytes overhead_1_25 [0; 1; 2; 3]).
  { intros z e Hz.
    repeat (apply elem_of_cons in Hz as [->|Hz];
            [intros He; vm_compute in He; injection He as <-; lia|]).
    by apply elem_of_nil in Hz. }
  assert (HG : group_zooms_by_limit [0; 1; 2; 3] scenario_bytes 10000000 overhead_1_25
               = Ok [[0; 1]; [2]; [3]]) by (vm_compute; reflexivity).
  assert (He : adjusted_estimate scenario_bytes overhead_1_25 2 = Ok 62500000)
    by (vm_compute; reflexivity).
  split; [exact HG|]. split; [exact Hnn|]. split; [exact He|].
  apply (group_zooms_by_limit_oversized_alone _ _ _ _ _ [2] 2 62500000 HG Hnn);
    [right; left|left|exact He|lia].
Defined.

Section Fewest.

Variable wt : Z -> Z.
Variable limit : Z.

Lemma cut_greedily_tail X g G :
  cut_greedily wt limit X (g :: G) -> cut_greedily wt limit (concat G) G.
Proof.
  intros (_ & Hne & Hb). split; [done|]. split; [by inversion Hne|].
  intros i g' z rest Hi HSi. by apply (Hb (S i) g' z rest).
Qed.

Lemma sum_Z_wt_nonneg (l : list Z) :
  Forall (fun z => 0 <= wt z) l -> 0 <= sum_Z (wt <$> l).
Proof.
  intros H. apply sum_Z_nonneg, Forall_fmap. exact H.
Qed.

(** A greedy cut of a suffix of a list has at most as many groups as any
    admissible cut of the whole list. *)
Lemma cut_greedily_fewest (P : list (list Z)) :
  forall (G : list (list Z)) (X d : list Z),
    Forall (fun z => 0 <= wt z) (concat P) ->
    Forall (fun g => g <> []) P ->
    Forall (fun g => (1 < length g)%nat -> sum_Z (wt <$> g) <= limit) P ->
    concat P = d ++ X ->
    cut_greedily wt limit X G ->
    (length G <= length P)%nat.
Proof.
  induction P as [|p1 P IH]; intros G X d Hnn Hne Hadm Hcat HG.
  - simpl in Hcat. symmetry in Hcat. apply app_eq_nil in Hcat as [_ ->].
    destruct HG as (HcatG & HneG & _).
    destruct G as [|g G]; [done|].
    apply Forall_cons in HneG as [Hg _]. simpl in HcatG.
    apply app_eq_nil in HcatG as [-> _]. done.
  - destruct G as [|g1 G]; [simpl; lia|].
    simpl in Hcat, Hnn. apply Forall_app in Hnn as [Hnn1 HnnP].
    apply Forall_cons in Hne as [Hp1 HneP].
    apply Forall_cons in Hadm as [Hadm1 HadmP].
    apply app_eq_inv in Hcat as [(q & Hp1eq & HX)|(d' & Hd & HP)].
    + (* the first group of [P] reaches into [X] *)
      destruct q as [|y q].
      { (* ... by nothing: [X] is a suffix of the rest of [P] *)
        simpl in HX. subst X.
        specialize (IH (g1 :: G) (concat P) [] HnnP HneP HadmP eq_refl HG).
        simpl in *. lia. }
      pose proof HG as (HcatG & HneG & Hb).
      simpl in HcatG. rewrite HX in HcatG.
      apply app_eq_inv in HcatG as [(t & Hg1 & HPt)|(r & Hq & HGr)].
      * (* the first greedy group covers it *)
        specialize (IH G (concat G) t HnnP HneP HadmP HPt
                      (cut_greedily_tail _ _ _ HG)).
        simpl. lia.
      * destruct r as [|z r].
        { rewrite app_nil_r in Hq. simpl in HGr.
          specialize (IH G (concat G) [] HnnP HneP HadmP (eq_sym HGr)
                        (cut_greedily_tail _ _ _ HG)).
          simpl. lia. }
        (* the first group of [P] holds the first greedy group and the
           level after it: it is over the limit *)
        exfalso.
        apply Forall_cons in HneG as [Hg1ne HneG'].
        destruct G as [|g2 G]; [discriminate|].
        apply Forall_cons in HneG' as [Hg2ne _].
        destruct g2 as [|z' rest]; [done|].
        simpl in HGr. inversion HGr; subst z'.
        specialize (Hb 0%nat g1 z rest eq_refl eq_refl).
        assert (Hlen : (1 < length p1)%nat).
        { rewrite Hp1eq, Hq, !length_app. simpl.
          destruct g1; [done|]. simpl. lia. }
        specialize (Hadm1 Hlen).
        rewrite Hp1eq, Hq in Hadm1, Hnn1.
        rewrite !fmap_app, !sum_Z_app, fmap_cons in Hadm1.
        change (sum_Z (wt z :: ?l)) with (wt z + sum_Z l) in Hadm1.
        apply Forall_app in Hnn1 as [Hd Hnn1].
        apply Forall_app in Hnn1 as [_ Hnn1].
        apply Forall_cons in Hnn1 as [_ Hr].
        pose proof (sum_Z_wt_nonneg _ Hd). pose proof (sum_Z_wt_nonneg _ Hr).
        lia.
    + (* the first group of [P] ends before [X] starts *)
      specialize (IH (g1 :: G) X d' HnnP HneP HadmP HP HG).
      simpl in *. lia.
Qed.

End Fewest.

(** X7 (fewest groups): when the adjusted estimates are non-negative, no
    admissible way of cutting the input into consecutive groups (non-empty
    groups in input order, every group of more than one level within the
    limit) has fewer groups than the result of [group_zooms_by_limit]. *)
Theorem group_zooms_by_limit_fewest_groups
    (zooms : list Z) (zoom_bytes : gmap Z Z) (limit_bytes : Z)
    (overhead_factor : float) (G P : list (list Z)) :
  group_zooms_by_limit zooms zoom_bytes limit_bytes overhead_factor = Ok G ->
  nonnegative_estimates zoom_bytes overhead_factor zooms ->
  admissible_grouping zoom_bytes limit_bytes overhead_factor zooms P ->
  (length G <= length P)%nat.
Proof.
  intros HG Hnn (Hcat & Hne & Hadm).
  pose proof (group_zooms_by_limit_ok _ _ _ _ _ HG) as Hok.
  destruct zooms as [|z0 zs].
  { rewrite group_zooms_by_limit_nil in HG. inversion HG. simpl. lia. }
  destruct (group_zooms_by_limit_packed zoom_bytes limit_bytes overhead_factor
              (z0 :: zs)) as (G' & st & HG' & Hinv); [done|done|].
  rewrite HG in HG'. inversion HG'; subst G'.
  apply (cut_greedily_fewest (weight zoom_bytes overhead_factor) limit_bytes
           P G (z0 :: zs) []); [|done|done|done|].
  - rewrite Hcat. apply Forall_forall. intros z Hz.
    by eapply weight_nonneg.
  - split; [apply (packed_concat _ _ _ _ _ _ Hinv)|].
    split; [apply (packed_nonempty _ _ _ _ _ _ Hinv)|].
    intros i g z rest Hi HSi.
    destruct (packed_boundary _ _ _ _ _ _ Hinv i g z rest Hi HSi)
      as (s & e & Hs & He & Hlt).
    apply group_estimate_weight in Hs. subst s.
    unfold weight at 2. by rewrite He.
Qed.

Lemma group_zooms_by_limit_fewest_groups_witness :
  group_zooms_by_limit [0; 1; 2; 3] scenario_bytes 10000000 overhead_1_25
    = Ok [[0; 1]; [2]; [3]] /\
  nonnegative_estimates scenario_bytes overhead_1_25 [0; 1; 2; 3] /\
  admissible_grouping scenario_bytes 10000000 overhead_1_25 [0; 1; 2; 3]
    [[0]; [1]; [2]; [3]] /\
  (length [[0; 1]; [2]; [3]] <= length [[0]; [1]; [2]; [3]])%nat.
Proof.
  assert (Hnn : nonnegative_estimates scenario_bytes overhead_1_25 [0; 1; 2; 3]).
  { intros z e Hz.
    repeat (apply elem_of_cons in Hz as [->|Hz];
            [intros He; vm_compute in He; injection He as <-; lia|]).
    by apply elem_of_nil in Hz. }
  assert (HG : group_zooms_by_limit [0; 1; 2; 3] scenario_bytes 10000000 overhead_1_25
               = Ok [[0; 1]; [2]; [3]]) by (vm_compute; reflexivity).
  assert (HP : admissible_grouping scenario_bytes 10000000 overhead_1_25
                 [0; 1; 2; 3] [[0]; [1]; [2]; [3]]).
  { split; [reflexivity|]. split.
    - repeat constructor; discriminate.
    - repeat constructor; simpl; lia. }
  split; [exact HG|]. split; [exact Hnn|]. split; [exact HP|].
  exact (group_zooms_by_limit_fewest_groups _ _ _ _ _ _ HG Hnn HP).
Defined.

(** X8 (everything fits): when the adjusted estimates are non-negative and
    their sum over the whole non-empty input is within the limit, the result
    is the single group of all input levels. *)
Theorem group_zooms_by_limit_single_group
    (zooms : list Z) (zoom_bytes : gmap Z Z) (limit_bytes : Z)
    (overhead_factor : float) (s : Z) :
  zooms <> [] ->
  group_estimate zoom_bytes overhead_factor zooms = Ok s -> s <= limit_bytes ->
  nonnegative_estimates zoom_bytes overhead_factor zooms ->
  group_zooms_by_limit zooms zoom_bytes limit_bytes overhead_factor = Ok [zooms].
Proof.
  intros Hne Hs Hle Hnn.
  assert (Hok : Forall (fun z => is_ok (adjusted_estimate zoom_bytes overhead_factor z))
                       zooms).
  { clear Hle Hnn Hne. revert s Hs. induction zooms as [|z zs IH]; intros s Hs.
    - constructor.
    - simpl in Hs.
      destruct (adjusted_estimate zoom_bytes overhead_factor z) as [e|] eqn:He;
        simpl in Hs; [|discriminate].
      destruct (group_estimate zoom_bytes overhead_factor zs) as [sz|] eqn:Hz;
        simpl in Hs; [|discriminate].
      constructor; [by exists e|]. by eapply IH. }
  destruct (group_zooms_by_limit_packed zoom_bytes limit_bytes overhead_factor
              zooms Hne Hok) as (G & st & HG & Hinv).
  rewrite HG. f_equal.
  pose proof (packed_concat _ _ _ _ _ _ Hinv) as Hcat.
  pose proof (packed_nonempty _ _ _ _ _ _ Hinv) as HneG.
  apply group_estimate_weight in Hs.
  destruct G as [|g1 [|g2 G]].
  - simpl in Hcat. by subst.
  - simpl in Hcat. rewrite app_nil_r in Hcat. by subst.
  - exfalso.
    apply Forall_cons in HneG as [_ HneG'].
    apply Forall_cons in HneG' as [Hg2 _].
    destruct g2 as [|z rest]; [done|].
    destruct (packed_boundary _ _ _ _ _ _ Hinv 0%nat g1 z rest eq_refl eq_refl)
      as (s1 & e & Hs1 & He & Hlt).
    apply group_estimate_weight in Hs1.
    assert (Hw : weight zoom_bytes overhead_factor z = e)
      by (unfold weight; by rewrite He).
    subst zooms. simpl in Hs, Hnn.
    rewrite fmap_app, sum_Z_app, fmap_cons in Hs.
    change (sum_Z (weight zoom_bytes overhead_factor z :: ?l))
      with (weight zoom_bytes overhead_factor z + sum_Z l) in Hs.
    rewrite fmap_app, sum_Z_app in Hs.
    assert (0 <= sum_Z (weight zoom_bytes overhead_factor <$> rest)).
    { eapply sum_weight_nonneg; [exact Hnn|].
      intros y Hy. repeat (rewrite elem_of_app || rewrite elem_of_cons). tauto. }
    assert (0 <= sum_Z (weight zoom_bytes overhead_factor <$> concat G)).
    { eapply sum_weight_nonneg; [exact Hnn|].
      intros y Hy. repeat (rewrite elem_of_app || rewrite elem_of_cons). tauto. }
    lia.
Qed.

Lemma group_zooms_by_limit_single_group_witness :
  [0; 1] <> [] /\
  group_estimate scenario_bytes overhead_1_25 [0; 1] = Ok 3750 /\
  3750 <= 10000000 /\
  nonnegative_estimates scenario_bytes overhead_1_25 [0; 1] /\
  group_zooms_by_limit [0; 1] scenario_bytes 10000000 overhead_1_25 = Ok [[0; 1]].
Proof.
  assert (Hnn : nonnegative_estimates scenario_bytes overhead_1_25 [0; 1]).
  { intros z e Hz.
    repeat (apply elem_of_cons in Hz as [->|Hz];
            [intros He; vm_compute in He; injection He as <-; lia|]).
    by apply elem_of_nil in Hz. }
  assert (Hs : group_estimate scenario_bytes overhead_1_25 [0; 1] = Ok 3750)
    by (vm_compute; reflexivity).
  split; [discriminate|]. split; [exact Hs|]. split; [lia|]. split; [exact Hnn|].
  apply (group_zooms_by_limit_single_group [0; 1] scenario_bytes 10000000
           overhead_1_25 3750); [discriminate|exact Hs|lia|exact Hnn].
Defined.

(** ** More on the writers *)

(** X9 ([copy_metadata]): whatever the destination held, [copy_metadata]
    returns; afterwards the metadata table of the destination holds exactly
    the metadata rows of the source, in the same order (no row when the
    source has no metadata table), the other tables of the destination, the
    source connection and the standard output are as before, and the
    destination has a transaction open. *)
Theorem copy_metadata_replaces_rows (p : process) :
  exists p',
    copy_metadata p = (Ok tt, p') /\
    metadata (database_of (dst p'))
      = Some (default [] (metadata (database_of (src p)))) /\
    tiles (database_of (dst p')) = tiles (database_of (dst p)) /\
    map_table (database_of (dst p')) = map_table (database_of (dst p)) /\
    images (database_of (dst p')) = images (database_of (dst p)) /\
    in_transaction (dst p') = true /\
    src p' = src p /\ stdout p' = stdout p.
Proof.
  destruct p as [s d o]. eexists. split; [apply copy_metadata_run|].
  repeat split.
Qed.

(** X10 ([upsert_metadata]): on a connection whose database has a metadata
    table, [upsert_metadata] returns and leaves exactly one row with the
    given name, holding the given value; the rows with other names are kept,
    in their order. *)
Theorem upsert_metadata_single_row
    (nm val : string) (c : connection) (rows : list metadata_row) :
  metadata (database_of c) = Some rows ->
  exists c' rows',
    upsert_metadata nm val c = (Ok tt, c') /\
    metadata (database_of c') = Some rows' /\
    filter (fun r => name r = nm) rows' = [MetadataRow nm val] /\
    filter (fun r => name r <> nm) rows' = filter (fun r => name r <> nm) rows.
Proof.
  intros Hrows. destruct c as [db tx]. simpl in Hrows.
  eexists _, _. split; [by apply upsert_metadata_run|].
  split; [reflexivity|].
  rewrite !filter_app. split.
  - replace (filter (fun r => name r = nm) (filter (fun r => name r <> nm) rows))
      with (@nil metadata_row).
    + simpl. rewrite filter_cons, decide_True by done. reflexivity.
    + symmetry. apply filter_nil_iff_not_elem.
      intros r Hr. by apply list_elem_of_filter in Hr as [Hne _].
  - rewrite (filter_cons _ (MetadataRow nm val)), decide_False by (simpl; tauto).
    rewrite filter_nil, app_nil_r.
    rewrite list_filter_filter. apply list_filter_iff. tauto.
Qed.

Lemma upsert_metadata_single_row_witness :
  metadata (database_of (connect one_tile_archive))
    = Some [MetadataRow "format" "png"; MetadataRow "minzoom" "0";
            MetadataRow "maxzoom" "5"] /\
  exists c' rows',
    upsert_metadata "maxzoom" "3" (connect one_tile_archive) = (Ok tt, c') /\
    metadata (database_of c') = Some rows' /\
    filter (fun r => name r = "maxzoom"%string) rows' = [MetadataRow "maxzoom" "3"] /\
    filter (fun r => name r <> "maxzoom"%string) rows'
      = filter (fun r => name r <> "maxzoom"%string)
          [MetadataRow "format" "png"; MetadataRow "minzoom" "0";
           MetadataRow "maxzoom" "5"].
Proof.
  split; [reflexivity|].
  apply (upsert_metadata_single_row "maxzoom" "3" (connect one_tile_archive) _ eq_refl).
Defined.

(** X11 ([create_schema_tiles]): when [create_schema_tiles] returns, the
    [tiles] table exists with the rows it had before (none when it has just
    been created), the unique index exists, the transaction flag is as
    before, and running it again changes nothing; when it had to create the
    index, the coordinate triples of the rows are pairwise distinct. *)
Theorem create_schema_tiles_idempotent (c c1 : connection) :
  create_schema_tiles c = (Ok tt, c1) ->
  create_schema_tiles c1 = (Ok tt, c1) /\
  tiles (database_of c1) = Some (default [] (tiles (database_of c))) /\
  tile_index (database_of c1) = true /\
  in_transaction c1 = in_transaction c /\
  (tile_index (database_of c) = false ->
   NoDup (tiles_key <$> default [] (tiles (database_of c)))).
Proof.
  destruct c as [[t ti m mi im pk md] tx].
  unfold create_schema_tiles, mbind, action_bind, execute, execute_create_index,
    create_table_tiles, create_tile_index. simpl.
  destruct t as [rows|], ti; simpl;
    try (intros [= <-]; repeat split; (done || constructor)).
  destruct (bool_decide_reflect (NoDup (tiles_key <$> rows))) as [Hnd|Hnd];
    simpl; [|discriminate].
  intros [= <-]. repeat split. done.
Qed.

Lemma create_schema_tiles_idempotent_witness :
  let c := connect unsorted_tiles_archive in
  let c1 := connect (set_tile_index true unsorted_tiles_archive) in
  create_schema_tiles c = (Ok tt, c1) /\
  create_schema_tiles c1 = (Ok tt, c1) /\
  tiles (database_of c1) = Some (default [] (tiles (database_of c))) /\
  tile_index (database_of c1) = true /\
  in_transaction c1 = in_transaction c /\
  (tile_index (database_of c) = false ->
   NoDup (tiles_key <$> default [] (tiles (database_of c)))).
Proof.
  intros c c1.
  assert (H : create_schema_tiles c = (Ok tt, c1)) by (vm_compute; reflexivity).
  split; [exact H|].
  exact (create_schema_tiles_idempotent c c1 H).
Defined.

(** X12 ([create_schema_map_images]): when [create_schema_map_images]
    returns, the [map] and [images] tables exist with the rows they had
    before, the unique index on [map] exists, and running it again changes
    nothing. *)
Theorem create_schema_map_images_idempotent (c c1 : connection) :
  create_schema_map_images c = (Ok tt, c1) ->
  create_schema_map_images c1 = (Ok tt, c1) /\
  map_table (database_of c1) = Some (default [] (map_table (database_of c))) /\
  images (database_of c1) = Some (default [] (images (database_of c))) /\
  map_index (database_of c1) = true /\
  in_transaction c1 = in_transaction c.
Proof.
  destruct c as [[t ti m mi im pk md] tx].
  unfold create_schema_map_images, mbind, action_bind, execute,
    execute_create_index, create_table_map, create_table_images, create_map_index.
  simpl.
  destruct m as [rows|], im as [imgs|], mi; simpl;
    try (intros [= <-]; repeat split; done);
    destruct (bool_decide (NoDup (map_key <$> rows))); simpl;
    try discriminate; intros [= <-]; repeat split; done.
Qed.

Lemma create_schema_map_images_idempotent_witness :
  let c := connect partly_dangling_archive in
  let c1 := connect (set_map_index true partly_dangling_archive) in
  create_schema_map_images c = (Ok tt, c1) /\
  create_schema_map_images c1 = (Ok tt, c1) /\
  map_table (database_of c1) = Some (default [] (map_table (database_of c))) /\
  images (database_of c1) = Some (default [] (images (database_of c))) /\
  map_index (database_of c1) = true /\
  in_transaction c1 = in_transaction c.
Proof.
  intros c c1.
  assert (H : create_schema_map_images c = (Ok tt, c1)) by (vm_compute; reflexivity).
  split; [exact H|].
  exact (create_schema_map_images_idempotent c c1 H).
Defined.

Lemma set_tiles_same db rows : tiles db = Some rows -> set_tiles (Some rows) db = db.
Proof. intros <-. by destruct db. Qed.

Lemma set_map_table_same db rows :
  map_table db = Some rows -> set_map_table (Some rows) db = db.
Proof. intros <-. by destruct db. Qed.

Lemma set_images_same db rows :
  images db = Some rows -> set_images (Some rows) (images_pk db) db = db.
Proof. intros <-. by destruct db. Qed.

Lemma for_each_insert_tiles_row_conflict sel :
  forall rows,
    sel <> [] -> sel ⊆ rows ->
    for_each (insert_tiles_row true) sel rows = Raise IntegrityError.
Proof.
  destruct sel as [|r sel]; intros rows Hne Hsub; [done|].
  assert (Hr : insert_tiles_row true rows r = Raise IntegrityError).
  { unfold insert_tiles_row. rewrite bool_decide_eq_true_2; [reflexivity|].
    apply list_elem_of_fmap_2, Hsub. left. }
  simpl. by rewrite Hr.
Qed.

Lemma for_each_insert_map_row_conflict sel :
  forall rows,
    sel <> [] -> sel ⊆ rows ->
    for_each (insert_map_row true) sel rows = Raise IntegrityError.
Proof.
  destruct sel as [|r sel]; intros rows Hne Hsub; [done|].
  assert (Hr : insert_map_row true rows r = Raise IntegrityError).
  { unfold insert_map_row. rewrite bool_decide_eq_true_2; [reflexivity|].
    apply list_elem_of_fmap_2, Hsub. left. }
  simpl. by rewrite Hr.
Qed.

(** X13 (the copy statement of the [tiles] writer adds nothing): on a
    database whose [tiles] table has its unique index (as it has after
    [create_schema_tiles]), the INSERT ... SELECT of the writer leaves the
    database exactly as it is when no row of its own [tiles] table is at a
    zoom level of the group, and fails with [IntegrityError] otherwise: it
    never adds a row. *)
Theorem insert_into_tiles_select_adds_nothing
    (zooms : list Z) (db : database) (rows : list tiles_row) :
  tile_index db = true -> tiles db = Some rows ->
  (Forall (fun r => zoom_level r ∉ zooms) rows ->
     insert_into_tiles_select zooms db = Ok db) /\
  (Exists (fun r => zoom_level r ∈ zooms) rows ->
     insert_into_tiles_select zooms db = Raise IntegrityError).
Proof.
  intros Hidx Hrows. unfold insert_into_tiles_select. rewrite Hrows, Hidx. simpl.
  split.
  - intros Hnone.
    replace (filter (fun r => sql_in (zoom_level r) zooms = true) rows)
      with (@nil tiles_row).
    + simpl. by rewrite set_tiles_same.
    + symmetry. apply filter_nil_iff_not_elem. intros r Hr Hin.
      apply bool_decide_eq_true in Hin.
      by apply (proj1 (Forall_forall _ _) Hnone r Hr).
  - intros Hsome. apply Exists_exists in Hsome as (r & Hr & Hin).
    rewrite for_each_insert_tiles_row_conflict; [reflexivity| |].
    + intros Hnil.
      assert (Hrf : r ∈ filter (fun r => sql_in (zoom_level r) zooms = true) rows).
      { apply list_elem_of_filter. split; [|done]. by apply bool_decide_eq_true. }
      rewrite Hnil in Hrf. by apply elem_of_nil in Hrf.
    + intros x Hx. by apply list_elem_of_filter in Hx as [_ Hx].
Qed.

Lemma insert_into_tiles_select_adds_nothing_witness :
  tile_index one_tile_archive = true /\
  insert_into_tiles_select [1; 2] one_tile_archive = Ok one_tile_archive /\
  insert_into_tiles_select [0; 2] one_tile_archive = Raise IntegrityError.
Proof.
  split; [reflexivity|]. split.
  - apply (proj1 (insert_into_tiles_select_adds_nothing [1; 2] one_tile_archive _
                    eq_refl eq_refl)).
    constructor; [|constructor]. simpl. intros H.
    apply elem_of_cons in H as [H|H]; [discriminate|].
    apply elem_of_cons in H as [H|H]; [discriminate|].
    by apply elem_of_nil in H.
  - apply (proj2 (insert_into_tiles_select_adds_nothing [0; 2] one_tile_archive _
                    eq_refl eq_refl)).
    apply Exists_cons_hd. simpl. apply elem_of_cons. by left.
Defined.

(** X14 (the copy statements of the [map]/[images] writer add nothing): on a
    database whose [map] table has its unique index and whose [images] table
    has its primary key (as after [create_schema_map_images] on a fresh
    file), the INSERT ... SELECT into [map] leaves the database as it is or
    fails with [IntegrityError], and the INSERT OR IGNORE into [images]
    always leaves the database as it is. *)
Theorem insert_into_map_images_select_add_nothing
    (zooms : list Z) (db : database) (ms : list map_row) (imgs : list images_row) :
  map_index db = true -> images_pk db = true ->
  map_table db = Some ms -> images db = Some imgs ->
  (insert_into_map_select zooms db = Ok db \/
   insert_into_map_select zooms db = Raise IntegrityError) /\
  insert_or_ignore_into_images_select db = Ok db.
Proof.
  intros Hidx Hpk Hms Himgs. split.
  - unfold insert_into_map_select. rewrite Hms, Hidx. simpl.
    destruct (filter (fun r => sql_in (map_zoom_level r) zooms = true) ms)
      as [|r sel] eqn:Hf.
    + left. simpl. by rewrite set_map_table_same.
    + right. rewrite for_each_insert_map_row_conflict; [reflexivity|done|].
      rewrite <- Hf. intros x Hx. by apply list_elem_of_filter in Hx as [_ Hx].
  - unfold insert_or_ignore_into_images_select. rewrite Hms, Himgs, Hpk. simpl.
    assert (Hfold : forall sel : list images_row,
              sel ⊆ imgs -> foldl (insert_or_ignore_images_row true) imgs sel = imgs).
    { induction sel as [|i sel IH]; intros Hsub; [reflexivity|].
      assert (Hi : insert_or_ignore_images_row true imgs i = imgs).
      { unfold insert_or_ignore_images_row. rewrite bool_decide_eq_true_2; [done|].
        apply list_elem_of_fmap_2, Hsub. left. }
      simpl. rewrite Hi. apply IH. intros x Hx. apply Hsub. by right. }
    rewrite Hfold.
    + rewrite <- Hpk. by rewrite set_images_same.
    + intros x Hx. by apply list_elem_of_filter in Hx as [_ Hx].
Qed.

Lemma insert_into_map_images_select_add_nothing_witness :
  map_index one_image_archive = true /\ images_pk one_image_archive = true /\
  (insert_into_map_select [5] one_image_archive = Ok one_image_archive \/
   insert_into_map_select [5] one_image_archive = Raise IntegrityError) /\
  insert_or_ignore_into_images_select one_image_archive = Ok one_image_archive.
Proof.
  split; [reflexivity|]. split; [reflexivity|].
  apply (insert_into_map_images_select_add_nothing [5] one_image_archive _ _
           eq_refl eq_refl eq_refl eq_refl).
Defined.

(** X15 (the writers never return): on every source, every content of the
    output path, every group and every limit, both writers end by raising an
    exception: neither ever returns a size. *)
Theorem split_schema_always_raises
    (getsize : database -> Z) (src_db out_db : database) (zooms : list Z)
    (limit_bytes : Z) :
  (exists e p,
     split_tiles_schema getsize src_db out_db zooms limit_bytes = (Raise e, p)) /\
  (exists e p,
     split_map_images_schema getsize src_db out_db zooms limit_bytes = (Raise e, p)).
Proof.
  split.
  - pose proof (split_tiles_schema_from_never_returns getsize zooms limit_bytes
                  (Process (connect src_db) (connect out_db) []) I) as H.
    unfold split_tiles_schema, connect_ro, connect_rw.
    destruct (split_tiles_schema_from _ _ _ _) as [[a|e] p]; [done|eauto].
  - pose proof (split_map_images_schema_from_never_returns getsize zooms limit_bytes
                  (Process (connect src_db) (connect out_db) []) I) as H.
    unfold split_map_images_schema, connect_ro, connect_rw.
    destruct (split_map_images_schema_from _ _ _ _) as [[a|e] p]; [done|eauto].
Qed.

(** X16 (empty group): called with an empty zoom group on a fresh output
    path, both writers raise [ValueError] (from [min] of the empty list),
    after they have created the tables of the schema and copied the source
    metadata rows into a transaction that is left open; nothing is
    printed. *)
Theorem split_schema_empty_group
    (getsize : database -> Z) (src_db : database) (limit_bytes : Z) :
  split_tiles_schema getsize src_db empty_database [] limit_bytes =
    (Raise ValueError,
     Process (connect src_db)
       (Connection
          (Database (Some []) true None false None false
                    (Some (default [] (metadata src_db))))
          true)
       []) /\
  split_map_images_schema getsize src_db empty_database [] limit_bytes =
    (Raise ValueError,
     Process (connect src_db)
       (Connection
          (Database None false (Some []) true (Some []) true
                    (Some (default [] (metadata src_db))))
          true)
       []).
Proof.
  split.
  - unfold split_tiles_schema, split_tiles_schema_from, connect_ro, connect_rw.
    do 3 (run_on_dst; unfold execute_pragma at 1).
    run_bind. rewrite copy_metadata_run.
    unfold connect at 2 3, empty_database, set_metadata.
    cbn [dst src stdout database_of in_transaction tiles tile_index map_table
         map_index images images_pk metadata].
    run_on_dst. rewrite create_schema_tiles_fresh. reflexivity.
  - unfold split_map_images_schema, split_map_images_schema_from, connect_ro,
      connect_rw.
    do 3 (run_on_dst; unfold execute_pragma at 1).
    run_bind. rewrite copy_metadata_run.
    unfold connect at 2 3, empty_database, set_metadata.
    cbn [dst src stdout database_of in_transaction tiles tile_index map_table
         map_index images images_pk metadata].
    run_on_dst. rewrite create_schema_map_images_fresh. reflexivity.
Qed.

(** ** [sanitize_name] *)

Section SanitizeNameProofs.

Variable unicode_isalnum : N -> bool.
Variable unicode_isspace : N -> bool.

Abbreviation kept := (kept_char unicode_isalnum).
Abbreviation space := (isspace unicode_isspace).

Lemma sub_runs_kept s :
  forall b, Forall (fun c => kept c = true) (sub_runs unicode_isalnum b s).
Proof.
  induction s as [|c s IH]; intros b; simpl; [constructor|].
  destruct (kept c) eqn:Hc.
  - constructor; [done|apply IH].
  - destruct b; [apply IH|]. constructor; [|apply IH].
    unfold kept_char, word_char. by rewrite orb_true_r.
Qed.

Lemma sub_runs_fixes_kept s b :
  Forall (fun c => kept c = true) s -> sub_runs unicode_isalnum b s = s.
Proof.
  revert b. induction s as [|c s IH]; intros b H; [reflexivity|].
  apply Forall_cons in H as [Hc Hs]. simpl. rewrite Hc. f_equal. by apply IH.
Qed.

Lemma lstrip_fixes s :
  Forall (fun c => space c = false) s -> lstrip unicode_isspace s = s.
Proof.
  destruct s as [|c s]; [reflexivity|]. intros H.
  apply Forall_cons in H as [Hc _]. simpl. by rewrite Hc.
Qed.

Lemma strip_fixes s :
  Forall (fun c => space c = false) s -> strip unicode_isspace s = s.
Proof.
  intros H. unfold strip, rstrip. rewrite (lstrip_fixes s H).
  rewrite lstrip_fixes; [apply reverse_involutive|].
  by apply Forall_reverse.
Qed.

(** An ASCII character of the class is no whitespace. *)
Lemma kept_ascii_not_space c :
  (c < 128)%N -> kept c = true -> space c = false.
Proof.
  intros Hc. unfold kept_char, word_char, isalnum, isspace, in_range.
  destruct (N.ltb_spec c 128) as [_|]; [|lia].
  intros Hk. apply not_true_is_false. revert Hk.
  rewrite !orb_true_iff, !andb_true_iff, !N.leb_le, !N.eqb_eq. lia.
Qed.

End SanitizeNameProofs.

(** X17 ([sanitize_name] yields a safe name): the result of [sanitize_name]
    is never empty and consists only of word characters, hyphens and dots
    (the characters of the class [[\w\-.]]). *)
Theorem sanitize_name_safe
    (unicode_isalnum unicode_isspace : N -> bool) (s : list N) :
  sanitize_name unicode_isalnum unicode_isspace s <> [] /\
  Forall (fun c => kept_char unicode_isalnum c = true)
         (sanitize_name unicode_isalnum unicode_isspace s).
Proof.
  unfold sanitize_name.
  pose proof (sub_runs_kept unicode_isalnum
                (strip unicode_isspace s) false) as H.
  destruct (sub_runs unicode_isalnum false (strip unicode_isspace s)) as [|c s'].
  - split; [discriminate|]. repeat constructor.
  - split; [discriminate|done].
Qed.

(** X18 ([sanitize_name] keeps a safe name): provided no character above
    127 is both alphanumeric and whitespace, a non-empty name made of word
    characters, hyphens and dots is returned unchanged; hence applying
    [sanitize_name] twice gives the same as applying it once. *)
Theorem sanitize_name_idempotent
    (unicode_isalnum unicode_isspace : N -> bool) (s : list N) :
  (forall c, unicode_isalnum c = true -> unicode_isspace c = false) ->
  (s <> [] -> Forall (fun c => kept_char unicode_isalnum c = true) s ->
   sanitize_name unicode_isalnum unicode_isspace s = s) /\
  sanitize_name unicode_isalnum unicode_isspace
    (sanitize_name unicode_isalnum unicode_isspace s)
  = sanitize_name unicode_isalnum unicode_isspace s.
Proof.
  intros Htab.
  assert (Hns : forall c, kept_char unicode_isalnum c = true ->
                          isspace unicode_isspace c = false).
  { intros c Hk. destruct (N.ltb_spec c 128) as [Hc|Hc].
    - by eapply kept_ascii_not_space.
    - revert Hk. unfold kept_char, word_char, isalnum, isspace.
      destruct (N.ltb_spec c 128) as [|_]; [lia|].
      destruct (N.eqb_spec c 95); [lia|].
      destruct (N.eqb_spec c 45); [lia|].
      destruct (N.eqb_spec c 46); [lia|].
      rewrite !orb_false_r. apply Htab. }
  assert (Hfix : forall t, t <> [] ->
            Forall (fun c => kept_char unicode_isalnum c = true) t ->
            sanitize_name unicode_isalnum unicode_isspace t = t).
  { intros t Hne Hk. unfold sanitize_name.
    rewrite strip_fixes by (eapply Forall_impl; [exact Hk|exact Hns]).
    rewrite sub_runs_fixes_kept by exact Hk.
    by destruct t. }
  split; [apply Hfix|].
  apply Hfix.
  - unfold sanitize_name. by destruct (sub_runs _ _ _).
  - unfold sanitize_name.
    pose proof (sub_runs_kept unicode_isalnum
                  (strip unicode_isspace s) false) as H.
    destruct (sub_runs _ _ _); [repeat constructor|done].
Qed.

Lemma sanitize_name_idempotent_witness :
  (forall c, ascii_only c = true -> ascii_only c = false) /\
  sanitize_name ascii_only ascii_only (codes "  my map (v2).final  ")
    = codes "my_map_v2_.final" /\
  sanitize_name ascii_only ascii_only
    (sanitize_name ascii_only ascii_only (codes "  my map (v2).final  "))
  = sanitize_name ascii_only ascii_only (codes "  my map (v2).final  ").
Proof.
  assert (H : forall c, ascii_only c = true -> ascii_only c = false)
    by (intros c _; reflexivity).
  split; [exact H|]. split; [vm_compute; reflexivity|].
  exact (proj2 (sanitize_name_idempotent ascii_only ascii_only
                  (codes "  my map (v2).final  ") H)).
Defined.

(** ** [main] *)

Lemma hoare_lift_result {S A} (P : S -> Prop) (r : result A) :
  hoare P (lift r) (fun a s => P s /\ r = Ok a).
Proof. intros s Hs. unfold lift. by destruct r. Qed.

Lemma hoare_pure {S A} (P : S -> Prop) (phi : Prop) (m : action S A)
    (Q : A -> S -> Prop) :
  (phi -> hoare P m Q) -> hoare (fun s => P s /\ phi) m Q.
Proof. intros H s [Hs Hphi]. by apply H. Qed.

Lemma hoare_any {S A} (P : S -> Prop) (m : action S A) :
  hoare P m (fun _ _ => True).
Proof. intros s _. by destruct (m s) as [[a|e] s']. Qed.

Lemma hoare_for_each_first {S A B} (P : S -> Prop)
    (body : B -> A -> action S B) (x : A) (xs : list A) (acc : B)
    (Q : B -> S -> Prop) :
  hoare P (body acc x) (fun _ _ => False) ->
  hoare P (for_each body (x :: xs) acc) Q.
Proof.
  intros Hbody s Hs. simpl. unfold mbind, action_bind.
  specialize (Hbody s Hs). by destruct (body acc x s) as [[a|e] s'].
Qed.

Lemma inspect_source_zooms c schema zooms zoom_bytes c' :
  inspect_source c = (Ok (schema, zooms, zoom_bytes), c') ->
  zooms <> [] /\
  get_zoom_levels schema c = (Ok zooms, c) /\
  get_mbtiles_schema_type c = (Ok schema, c) /\
  estimate_zoom_sizes_bytes schema c = (Ok zoom_bytes, c).
Proof.
  unfold inspect_source. unfold mbind at 1, action_bind at 1.
  rewrite get_mbtiles_schema_type_eq.
  set (r := if present (tiles (database_of c)) then _ else _).
  destruct r as [sch|e] eqn:Hr; [|discriminate].
  unfold mbind at 1, action_bind at 1.
  destruct (get_zoom_levels sch c) as [[zs|e] c1] eqn:Hz; [|discriminate].
  pose proof (get_zoom_levels_eq _ _ _ _ Hz) as [-> _].
  destruct zs as [|z zs]; [discriminate|].
  unfold mbind at 1, action_bind at 1.
  destruct (estimate_zoom_sizes_bytes sch c) as [[zb|e] c2] eqn:He; [|discriminate].
  pose proof (estimate_zoom_sizes_bytes_eq _ _ _ _ He) as [-> _].
  unfold mbind, action_bind, close, mret, action_ret.
  intros [= <- <- <- <-]. done.
Qed.

Lemma group_zooms_by_limit_nonempty zooms zoom_bytes limit_bytes overhead_factor G :
  zooms <> [] ->
  group_zooms_by_limit zooms zoom_bytes limit_bytes overhead_factor = Ok G ->
  G <> [].
Proof.
  intros Hne HG. pose proof (group_zooms_by_limit_ok _ _ _ _ _ HG) as Hok.
  destruct (group_zooms_by_limit_packed zoom_bytes limit_bytes overhead_factor
              zooms Hne Hok) as (G' & st & HG' & Hinv).
  rewrite HG in HG'. inversion HG'; subst G'.
  intros ->. pose proof (packed_concat _ _ _ _ _ _ Hinv) as Hcat.
  simpl in Hcat. by subst.
Qed.

Section MainProofs.

Variable unicode_isalnum : N -> bool.
Variable unicode_isspace : N -> bool.
Variable path : Type.
Context `{path_eq_dec : EqDecision path}.
Variable joinpath : path -> list N -> path.
Variable stem : path -> list N.
Variable getsize : database -> Z.
Variable resolve_uri : path -> uri_target path.
Variable mkdir : path -> result unit.

Lemma run_splitter_never_returns schema src_db out_path g limit_bytes :
  hoare (fun _ : run path => True)
        (run_splitter getsize schema src_db out_path g limit_bytes)
        (fun _ _ => False).
Proof.
  intros st _. unfold run_splitter.
  destruct (bool_decide (schema = "tiles"%string)).
  - pose proof (split_tiles_schema_never_returns getsize src_db
                  (default empty_database (files st out_path)) g limit_bytes) as H.
    destruct (split_tiles_schema _ _ _ _ _) as [[size|e] p]; [|done].
    by apply (H size).
  - pose proof (split_map_images_schema_never_returns getsize src_db
                  (default empty_database (files st out_path)) g limit_bytes) as H.
    destruct (split_map_images_schema _ _ _ _ _) as [[size|e] p]; [|done].
    by apply (H size).
Qed.

Lemma write_group_never_returns args schema prefix limit_bytes count produced ig :
  hoare (fun _ : run path => True)
        (write_group joinpath getsize resolve_uri args schema prefix limit_bytes
           count produced ig)
        (fun _ _ => False).
Proof.
  unfold write_group.
  hoare_step hoare_lift. hoare_step hoare_lift.
  hoare_step hoare_any. hoare_step hoare_any.
  eapply hoare_bind with (Q := fun _ _ => False); [|intros; apply hoare_false].
  unfold call_splitter.
  hoare_step hoare_any. apply run_splitter_never_returns.
Qed.

Lemma main_from_never_returns args :
  hoare (fun _ : run path => True)
        (main_from unicode_isalnum unicode_isspace joinpath stem getsize
           resolve_uri mkdir args)
        (fun _ _ => False).
Proof.
  unfold main_from.
  do 3 hoare_step hoare_any.
  eapply hoare_bind; [apply hoare_lift_result|].
  intros [[schema zooms] zoom_bytes]. cbv beta.
  apply hoare_pure. intros Hsrc.
  destruct (inspect_source _) as [r c'] eqn:Hc. simpl in Hsrc. subst r.
  apply inspect_source_zooms in Hc as (Hne & _).
  hoare_step hoare_any.
  eapply hoare_bind; [apply hoare_lift_result|].
  intros groups. cbv beta. apply hoare_pure. intros HG.
  pose proof (group_zooms_by_limit_nonempty _ _ _ _ _ Hne HG) as HGne.
  do 5 hoare_step hoare_any.
  eapply hoare_bind with (Q := fun _ _ => False); [|intros; apply hoare_false].
  destruct groups as [|g groups]; [done|]. simpl.
  apply hoare_for_each_first, write_group_never_returns.
Qed.

End MainProofs.

(** X19 ([main] never completes): for every command line and every content
    of the file system (whatever creating the output directory does and
    whatever file the source URI names), [main] ends by raising an
    exception; it never reaches its final report. *)
Theorem main_never_completes
    (unicode_isalnum unicode_isspace : N -> bool) (path : Type)
    `{path_eq_dec : EqDecision path} (joinpath : path -> list N -> path)
    (stem : path -> list N) (getsize : database -> Z)
    (resolve_uri : path -> uri_target path) (mkdir : path -> result unit)
    (args : arguments path) (fs : path -> option database) :
  exists e out,
    main unicode_isalnum unicode_isspace joinpath stem getsize resolve_uri mkdir
      args fs
    = (Raise e, out).
Proof.
  unfold main.
  pose proof (main_from_never_returns unicode_isalnum unicode_isspace path
                joinpath stem getsize resolve_uri mkdir args (Run fs []) I) as H.
  destruct (main_from _ _ _ _ _ _ _ _ _) as [[[]|e] st]; [done|eauto].
Qed.

Lemma inspect_source_unsupported c :
  tiles (database_of c) = None ->
  ~ (is_Some (map_table (database_of c)) /\ is_Some (images (database_of c))) ->
  inspect_source c = (Raise RuntimeError, c).
Proof.
  intros Ht Hmi. unfold inspect_source. unfold mbind at 1, action_bind at 1.
  rewrite get_mbtiles_schema_type_eq, Ht. simpl.
  destruct (map_table (database_of c)) as [m|], (images (database_of c)) as [i|];
    simpl; try reflexivity.
  exfalso. apply Hmi. split; by eexists.
Qed.

Lemma inspect_source_no_zoom_levels c :
  tiles (database_of c) = Some [] \/
  (tiles (database_of c) = None /\ map_table (database_of c) = Some [] /\
   is_Some (images (database_of c))) ->
  inspect_source c = (Raise RuntimeError, c).
Proof.
  intros H. unfold inspect_source. unfold mbind at 1, action_bind at 1.
  rewrite get_mbtiles_schema_type_eq.
  destruct H as [Ht|(Ht & Hm & [imgs Hi])].
  - rewrite Ht. simpl. unfold mbind at 1, action_bind at 1.
    by rewrite (get_zoom_levels_tiles c [] Ht).
  - rewrite Ht, Hm, Hi. simpl. unfold mbind at 1, action_bind at 1.
    by rewrite (get_zoom_levels_map "map_images" c []).
Qed.

Section MainTrace.

Variable unicode_isalnum : N -> bool.
Variable unicode_isspace : N -> bool.
Variable path : Type.
Context `{path_eq_dec : EqDecision path}.
Variable joinpath : path -> list N -> path.
Variable stem : path -> list N.
Variable getsize : database -> Z.
Variable resolve_uri : path -> uri_target path.
Variable mkdir : path -> result unit.

Lemma open_source_refused (p : path) (st : run path) :
  opened (files st) (resolve_uri p) = None ->
  open_source resolve_uri p st = (Raise OperationalError, st).
Proof.
  unfold open_source, opened.
  destruct (resolve_uri p) as [f|f| |]; try done.
  by intros ->.
Qed.

Lemma open_source_opened (p : path) (st : run path) db :
  opened (files st) (resolve_uri p) = Some db ->
  exists fs', open_source resolve_uri p st = (Ok db, Run fs' (printed st)).
Proof.
  unfold open_source, opened. destruct st as [fs out]. simpl.
  destruct (resolve_uri p) as [f|f| |]; try done.
  - intros ->. by eexists.
  - destruct (fs f) as [db'|]; simpl; intros [= <-]; by eexists.
  - intros [= <-]. by eexists.
Qed.

Lemma open_source_file (p f : path) (st : run path) db :
  resolve_uri p = ExistingFile f \/ resolve_uri p = FileOrNew f ->
  files st f = Some db ->
  open_source resolve_uri p st = (Ok db, st).
Proof. unfold open_source. by intros [-> | ->] ->. Qed.

Lemma for_each_warn_run zoom_bytes (args : arguments path) limit_bytes zooms :
  forall fs out,
    Forall (fun z => is_ok (adjusted_estimate zoom_bytes (arg_overhead args) z)) zooms ->
    for_each (warn_if_too_large zoom_bytes args limit_bytes) zooms tt (Run fs out)
    = (Ok tt,
       Run fs (out ++ oversize_warnings zoom_bytes (arg_overhead args)
                        limit_bytes zooms)).
Proof.
  induction zooms as [|z zooms IH]; intros fs out Hok.
  - simpl. by rewrite app_nil_r.
  - apply Forall_cons in Hok as [[e He] Hok].
    assert (Hw : weight zoom_bytes (arg_overhead args) z = e)
      by (unfold weight; by rewrite He).
    change (oversize_warnings zoom_bytes (arg_overhead args) limit_bytes (z :: zooms))
      with ((if limit_bytes <? weight zoom_bytes (arg_overhead args) z
             then [ZoomTooLarge z (weight zoom_bytes (arg_overhead args) z);
                   ZoomAloneMayExceed]
             else [])
            ++ oversize_warnings (path:=path) zoom_bytes (arg_overhead args)
                 limit_bytes zooms).
    rewrite Hw. simpl. unfold mbind at 1, action_bind at 1.
    unfold warn_if_too_large at 1. unfold mbind at 1, action_bind at 1.
    rewrite He. unfold lift at 1.
    destruct (limit_bytes <? e).
    + unfold mbind at 1, action_bind at 1. unfold say at 1 2. simpl.
      rewrite IH by done. by rewrite <- !app_assoc.
    + unfold mret, action_ret. by rewrite IH.
Qed.

Lemma run_splitter_fresh schema src_db (out_path : path) g limit_bytes zmin zmax
    fs out :
  min g = Ok zmin -> max g = Ok zmax -> fs out_path = None ->
  exists fs',
    run_splitter getsize schema src_db out_path g limit_bytes (Run fs out)
    = (Raise OperationalError, Run fs' out).
Proof.
  intros Hmin Hmax Hnone. unfold run_splitter. simpl. rewrite Hnone. simpl.
  destruct (bool_decide (schema = "tiles"%string)).
  - rewrite (split_tiles_schema_fresh getsize src_db g limit_bytes zmin zmax Hmin Hmax).
    simpl. rewrite app_nil_r. by eexists.
  - rewrite (split_map_images_schema_fresh getsize src_db g limit_bytes zmin zmax
               Hmin Hmax).
    simpl. rewrite app_nil_r. by eexists.
Qed.

Lemma write_group_run (args : arguments path) schema prefix limit_bytes count
    produced i g zmin zmax fs out db src_file :
  min g = Ok zmin -> max g = Ok zmax ->
  resolve_uri (arg_input args) = ExistingFile src_file \/
  resolve_uri (arg_input args) = FileOrNew src_file ->
  fs src_file = Some db ->
  joinpath (arg_outdir args) (output_name prefix zmin zmax) <> src_file ->
  exists fs',
    write_group joinpath getsize resolve_uri args schema prefix limit_bytes count
      produced (i, g) (Run fs out)
    = (Raise OperationalError,
       Run fs' (out ++ [Writing i count (output_name prefix zmin zmax) zmin zmax])).
Proof.
  intros Hmin Hmax Huri Hdb Hne. unfold write_group. simpl.
  rewrite Hmin, Hmax. unfold lift.
  do 2 unfold mbind at 1, action_bind at 1.
  unfold mbind at 1, action_bind at 1. unfold unlink_if_exists at 1. simpl.
  unfold mbind at 1, action_bind at 1. unfold say at 1. simpl.
  unfold mbind at 1, action_bind at 1. unfold call_splitter.
  unfold mbind at 1, action_bind at 1.
  erewrite (open_source_file (arg_input args) src_file _ db Huri); last first.
  { simpl. rewrite decide_False by (intros Heq; by apply Hne). exact Hdb. }
  match goal with
  | |- context [run_splitter _ _ _ ?o _ _ (Run ?f ?l)] =>
      destruct (run_splitter_fresh schema db o g limit_bytes zmin zmax f l
                  Hmin Hmax) as [fs' Hrun]
  end.
  { by rewrite decide_True. }
  rewrite Hrun. by eexists.
Qed.

End MainTrace.

(** X20 ([main] rejects a source it cannot split): when the output
    directory can be created and the limit is computable, [main] raises
    [OperationalError] if [connect_ro] opens no database (SQLite refuses the
    URI made from the input path, or the file that the URI names must exist
    and does not), and [RuntimeError] if the database it opens has neither a
    [tiles] table nor both [map] and [images], or if the table that holds
    the zoom levels has no row; in each case before anything is printed. *)
Theorem main_rejects_source
    (unicode_isalnum unicode_isspace : N -> bool) (path : Type)
    `{path_eq_dec : EqDecision path} (joinpath : path -> list N -> path)
    (stem : path -> list N) (getsize : database -> Z)
    (resolve_uri : path -> uri_target path) (mkdir : path -> result unit)
    (args : arguments path) (fs : path -> option database) (limit_bytes : Z) :
  mkdir (arg_outdir args) = Ok tt ->
  limit_bytes_of (arg_limit_mb args) = Ok limit_bytes ->
  (opened fs (resolve_uri (arg_input args)) = None ->
   main unicode_isalnum unicode_isspace joinpath stem getsize resolve_uri mkdir
     args fs
   = (Raise OperationalError, [])) /\
  (forall db,
     opened fs (resolve_uri (arg_input args)) = Some db ->
     tiles db = None /\ ~ (is_Some (map_table db) /\ is_Some (images db)) \/
     tiles db = Some [] \/
     (tiles db = None /\ map_table db = Some [] /\ is_Some (images db)) ->
     main unicode_isalnum unicode_isspace joinpath stem getsize resolve_uri mkdir
       args fs
     = (Raise RuntimeError, [])).
Proof.
  intros Hdir HL. split.
  - intros Hfs. unfold main, main_from.
    unfold mbind at 1, action_bind at 1. rewrite Hdir. unfold lift at 1.
    unfold mbind at 1, action_bind at 1. rewrite HL. unfold lift at 1.
    unfold mbind at 1, action_bind at 1.
    by rewrite (open_source_refused path resolve_uri (arg_input args) (Run fs []) Hfs).
  - intros db Hfs Hdb. unfold main, main_from.
    unfold mbind at 1, action_bind at 1. rewrite Hdir. unfold lift at 1.
    unfold mbind at 1, action_bind at 1. rewrite HL. unfold lift at 1.
    unfold mbind at 1, action_bind at 1.
    destruct (open_source_opened path resolve_uri (arg_input args) (Run fs []) db Hfs)
      as [fs' ->].
    unfold mbind at 1, action_bind at 1. unfold connect_ro.
    assert (Hsrc : inspect_source (connect db) = (Raise RuntimeError, connect db)).
    { destruct Hdb as [[Ht Hmi]|Hz].
      - by apply inspect_source_unsupported.
      - by apply inspect_source_no_zoom_levels. }
    rewrite Hsrc. reflexivity.
Qed.

Lemma main_rejects_source_witness :
  let args := Arguments (path:=string) "q?x.mbtiles" "out" None DEFAULT_LIMIT_MB
                overhead_1_25 in
  let resolve_uri := fun p : string =>
    if decide (p = "q?x.mbtiles"%string) then FileOrNew "q"%string
    else ExistingFile p in
  let fs := fun p : string =>
    if decide (p = "q?x.mbtiles"%string) then Some one_tile_archive else None in
  limit_bytes_of (arg_limit_mb args) = Ok 103809024 /\
  opened fs (resolve_uri (arg_input args)) = Some empty_database /\
  main ascii_only ascii_only (fun d n => d) (fun _ => codes "q?x") (fun _ => 0)
    resolve_uri (fun _ => Ok tt) args fs
  = (Raise RuntimeError, []).
Proof.
  intros args resolve_uri fs.
  assert (HL : limit_bytes_of (arg_limit_mb args) = Ok 103809024) by reflexivity.
  split; [exact HL|]. split; [reflexivity|].
  apply (proj2 (main_rejects_source ascii_only ascii_only string (fun d n => d)
                  (fun _ => codes "q?x") (fun _ => 0) resolve_uri (fun _ => Ok tt)
                  args fs 103809024 eq_refl HL)
           empty_database eq_refl).
  left. split; [reflexivity|]. intros [[? [=]] _].
Defined.


